(** * An epoll-backed readiness multiplexer: model and verification

    This development embeds [2_epoll_server/epoll_linux.go]: the [epoll]
    struct (one kernel epoll instance, a map from raw descriptors to
    [net.Conn] handles, a reader-writer lock) and its operations
    [MkEpoll], [Add], [Remove], [Wait] and [socketFD].

    The operations are written in a small state monad over a [world] made
    of the kernel's epoll state, the [epoll] struct and the process log.
    What the program cannot decide by itself (which descriptor the kernel
    hands out, whether a system call runs out of resources, when and why a
    blocked [epoll_wait] wakes up) is an explicit argument of the model. *)

From stdpp Require Import gmap strings list fin_maps.

Open Scope Z_scope.

(** ** Go integers

    [int] is 64 bits wide on the linux targets the file builds for, and
    [EpollEvent.Fd] is an [int32].  Conversions wrap around. *)

Definition wrap_signed (bits : Z) (x : Z) : Z :=
  (x + 2 ^ (bits - 1)) `mod` 2 ^ bits - 2 ^ (bits - 1).

Definition int (x : Z) : Z := wrap_signed 64 x.
Definition int32 (x : Z) : Z := wrap_signed 32 x.

(** ** Errors and panics *)

Inductive Errno : Set :=
| EINTR | EBADF | EEXIST | ENOENT | EINVAL | EFAULT
| ENOMEM | ENOSPC | EPERM | EMFILE | ENFILE.

#[global] Instance Errno_eq_dec : EqDecision Errno.
Proof. solve_decision. Defined.

(** A Go [error] value holding an errno; [None] is [nil]. *)
Abbreviation error := (option Errno).

Inductive Kind : Set := KInvalid | KInt | KPointer | KStruct | KOther.

Inductive panic : Set :=
| ValueError (method : string) (kind : Kind)  (* raised by package reflect *)
| IndexOutOfRange (i : Z) (len : nat)
| FatalUnlock.                                (* sync: unlock of unlocked mutex *)

(** ** Package reflect, as far as [socketFD] uses it

    A [Value] is what reflection sees of a Go value.  Struct fields are
    looked up by their own name; an embedded struct is a field named after
    its type, which is how [conn] is found inside [net.TCPConn]. *)

#[local] Set Warnings "-register-all".
Inductive Value : Type :=
| Invalid                                  (* the zero reflect.Value *)
| IntV (n : Z)                             (* any signed integer kind *)
| PtrV (elem : option Value)               (* a pointer; [None] is nil *)
| StructV (fields : list (string * Value))
| OtherV.                                  (* interface, string, slice, ... *)

Definition kind_of (v : Value) : Kind :=
  match v with
  | Invalid => KInvalid
  | IntV _ => KInt
  | PtrV _ => KPointer
  | StructV _ => KStruct
  | OtherV => KOther
  end.

(** Results of code that may panic before touching any shared state. *)
Inductive res (A : Type) : Type :=
| Ok (a : A)
| Panic (p : panic).
Arguments Ok {A} a.
Arguments Panic {A} p.

Definition res_bind {A B} (r : res A) (k : A → res B) : res B :=
  match r with
  | Ok a => k a
  | Panic p => Panic p
  end.

Module reflect.

(** [reflect.Indirect]: the pointee of a pointer (the zero Value for a
    nil pointer), any other value unchanged. *)
Definition Indirect (v : Value) : Value :=
  match v with
  | PtrV (Some w) => w
  | PtrV None => Invalid
  | _ => v
  end.

Fixpoint field (name : string) (fields : list (string * Value)) : Value :=
  match fields with
  | [] => Invalid
  | (n, v) :: rest => if decide (n = name) then v else field name rest
  end.

(** [Value.FieldByName]: panics unless the value is a struct; yields the
    zero Value when the struct has no such field. *)
Definition FieldByName (v : Value) (name : string) : res Value :=
  match v with
  | StructV fields => Ok (field name fields)
  | _ => Panic (ValueError "reflect.Value.FieldByName" (kind_of v))
  end.

(** [Value.Int]: panics unless the value is of a signed integer kind. *)
Definition Int (v : Value) : res Z :=
  match v with
  | IntV n => Ok n
  | _ => Panic (ValueError "reflect.Value.Int" (kind_of v))
  end.

End reflect.

(** ** Connection handles

    A [net.Conn] is an interface value: nil, or a dynamic value with an
    identity of its own ([id], the address of the connection object). Two
    handles may differ and still resolve to the same descriptor. *)

Inductive Conn : Type :=
| NilConn
| MkConn (id : nat) (dyn : Value).

Definition ValueOf (conn : Conn) : Value :=
  match conn with
  | NilConn => Invalid
  | MkConn _ v => v
  end.

(** The layout of [*net.TCPConn] that [socketFD] walks through:
    [TCPConn{conn{fd *netFD}}], [netFD{pfd poll.FD{..., Sysfd int, ...}}]. *)
Definition TCPConn (id : nat) (sysfd : Z) : Conn :=
  MkConn id
    (PtrV (Some (StructV
      [("conn", StructV
         [("fd", PtrV (Some (StructV
            [("pfd", StructV [("fdmu", OtherV); ("Sysfd", IntV sysfd);
                              ("IsStream", OtherV)]);
             ("family", IntV 2); ("isConnected", OtherV)])))])]))).

(** [socketFD] (lines 98-113). *)
Definition socketFD (conn : Conn) : res Z :=
  res_bind (reflect.FieldByName (reflect.Indirect (ValueOf conn)) "conn") (λ tcpConn,
  res_bind (reflect.FieldByName tcpConn "fd") (λ fdVal,
  res_bind (reflect.FieldByName (reflect.Indirect fdVal) "pfd") (λ pfdVal,
  res_bind (reflect.FieldByName pfdVal "Sysfd") (λ sysfd,
  res_bind (reflect.Int sysfd) (λ n,
  Ok (int n)))))).

(** ** The kernel side: package unix

    The kernel keeps the set of open descriptors and, for every epoll
    instance, its interest list: the registered descriptors with the event
    record given at registration.  A descriptor is a non-negative C int. *)

Record EpollEvent : Set := { Events : Z; Fd : Z; Pad : Z }.

Definition zeroEvent : EpollEvent := {| Events := 0; Fd := 0; Pad := 0 |}.

Record kernel : Type := {
  open_fds : gset Z;
  epolls : gmap Z (gmap Z EpollEvent)
}.

Module syscall.
Definition EPOLL_CTL_ADD : Z := 1.
Definition EPOLL_CTL_DEL : Z := 2.
Definition EPOLL_CTL_MOD : Z := 3.
End syscall.

Module unix.

Definition POLLIN : Z := 0x1.
Definition POLLHUP : Z := 0x10.
Definition EPOLL_CLOEXEC : Z := 0x80000.

Definition is_open (k : kernel) (fd : Z) : bool :=
  (0 <=? fd) && (fd <? 2 ^ 31) && bool_decide (fd ∈ open_fds k).

(** What the kernel decides on its own in [epoll_create1]: the new
    descriptor, or a failure (EMFILE, ENFILE, ENOMEM). *)
Inductive create_choice : Set :=
| NewFd (fd : Z)
| CreateFails (e : Errno).

(** [unix.EpollCreate1]: returns [(fd, err)], with [fd = -1] on error.
    A choice of a descriptor that is in use or out of range is not one
    the kernel can make; the call then fails with EMFILE. *)
Definition EpollCreate1 (choice : create_choice) (flag : Z) (k : kernel)
  : kernel * (Z * error) :=
  match choice with
  | CreateFails e => (k, (-1, Some e))
  | NewFd fd =>
      if negb (bool_decide (Z.land flag (Z.lnot EPOLL_CLOEXEC) = 0))
      then (k, (-1, Some EINVAL))
      else if (0 <=? fd) && (fd <? 2 ^ 31) && negb (bool_decide (fd ∈ open_fds k))
      then ({| open_fds := {[fd]} ∪ open_fds k;
               epolls := <[fd := ∅]> (epolls k) |}, (fd, None))
      else (k, (-1, Some EMFILE))
  end.

Definition set_interest (k : kernel) (epfd : Z) (il : gmap Z EpollEvent) : kernel :=
  {| open_fds := open_fds k; epolls := <[epfd := il]> (epolls k) |}.

(** [unix.EpollCtl].  [fault] is a failure the kernel may decide on for
    reasons outside this model (ENOMEM, ENOSPC, EPERM); otherwise the
    outcome follows epoll_ctl(2): EBADF for a descriptor that is not
    open, EINVAL for a target that is not an epoll instance, for the
    instance itself or for an unknown operation, EFAULT for a missing
    event record, EEXIST when adding a registered descriptor, ENOENT when
    changing or deleting an unregistered one.  A failing call leaves the
    kernel as it was. *)
Definition EpollCtl (fault : error) (epfd op fd : Z) (event : option EpollEvent)
    (k : kernel) : kernel * error :=
  match fault with
  | Some e => (k, Some e)
  | None =>
    if negb (is_open k epfd && is_open k fd) then (k, Some EBADF)
    else match epolls k !! epfd with
    | None => (k, Some EINVAL)
    | Some il =>
      if bool_decide (fd = epfd) then (k, Some EINVAL)
      else if bool_decide (op = syscall.EPOLL_CTL_ADD) then
        match event, il !! fd with
        | None, _ => (k, Some EFAULT)
        | Some _, Some _ => (k, Some EEXIST)
        | Some ev, None => (set_interest k epfd (<[fd := ev]> il), None)
        end
      else if bool_decide (op = syscall.EPOLL_CTL_DEL) then
        match il !! fd with
        | None => (k, Some ENOENT)
        | Some _ => (set_interest k epfd (delete fd il), None)
        end
      else if bool_decide (op = syscall.EPOLL_CTL_MOD) then
        match event, il !! fd with
        | None, _ => (k, Some EFAULT)
        | Some _, None => (k, Some ENOENT)
        | Some ev, Some _ => (set_interest k epfd (<[fd := ev]> il), None)
        end
      else (k, Some EINVAL)
    end
  end.

(** Why a blocked [epoll_wait] is woken up. *)
Inductive wake : Set :=
| Ready (fds : list Z)  (* events are pending on these descriptors, in the kernel's order *)
| Timeout               (* the [msec] timer ran out *)
| Fault (e : Errno).    (* the call fails; [Fault EINTR] is a signal *)

(** The event records reported for a ready list: one per descriptor that
    is in the interest list, carrying the data it was registered with.  (The
    kernel puts the events that occurred into [Events]; [Wait] reads [Fd]
    only, and the model leaves the registered mask there.) *)
Definition reported (il : gmap Z EpollEvent) (fds : list Z) : list EpollEvent :=
  omap (λ fd, il !! fd) fds.

(** [unix.EpollWait epfd events msec], followed up to the next wake-up
    [wk] ([None]: there is none yet).  The wrapper passes [len(events)]
    as the kernel's [maxevents].  The arguments are checked on entry:
    EBADF for a closed descriptor, EINVAL for one that is not an epoll
    instance or for an empty buffer.  The result is [None] when the call
    stays blocked (no wake-up, nothing registered is ready, or the timer
    fires although [msec] is negative, that is, there is no timer), and
    otherwise the buffer as the kernel left it, [n] and [err]. *)
Definition EpollWait (wk : option wake) (epfd : Z) (events : list EpollEvent)
    (msec : Z) (k : kernel) : option (list EpollEvent * Z * error) :=
  if negb (is_open k epfd) then Some (events, -1, Some EBADF)
  else match epolls k !! epfd with
  | None => Some (events, -1, Some EINVAL)
  | Some il =>
    if bool_decide (length events = 0%nat) then Some (events, -1, Some EINVAL)
    else match wk with
    | None => None
    | Some (Fault e) => Some (events, -1, Some e)
    | Some Timeout => if 0 <=? msec then Some (events, 0, None) else None
    | Some (Ready fds) =>
        let evs := take (length events) (reported il fds) in
        if bool_decide (evs = []) then None
        else Some (evs ++ drop (length evs) events, Z.of_nat (length evs), None)
    end
  end.

End unix.

(** ** The program state *)

(** [sync.RWMutex]: held by one writer, or by any number of readers. *)
Record RWMutex : Set := { writer : bool; readers : nat }.

(** The [epoll] struct (lines 16-23). *)
Record epoll : Type := {
  fd : Z;
  connections : gmap Z Conn;
  lock : RWMutex
}.

(** The kernel, the one [epoll] struct the receiver [e] points to, and
    what [log.Printf] has written so far (the reported counts). *)
Record world : Type := {
  os : kernel;
  e : epoll;
  logged : list Z
}.

Definition interest (w : world) : option (gmap Z EpollEvent) :=
  epolls (os w) !! fd (e w).

(** A call returns, panics, or waits forever for the lock or the kernel. *)
Inductive outcome (A : Type) : Type :=
| Returned (a : A) (w : world)
| Panicked (p : panic) (w : world)
| Blocked (w : world).
Arguments Returned {A} a w.
Arguments Panicked {A} p w.
Arguments Blocked {A} w.

Definition M (A : Type) : Type := world → outcome A.

Definition ret {A} (a : A) : M A := λ w, Returned a w.

Definition bind {A B} (m : M A) (k : A → M B) : M B :=
  λ w, match m w with
       | Returned a w' => k a w'
       | Panicked p w' => Panicked p w'
       | Blocked w' => Blocked w'
       end.

#[global] Instance M_ret : MRet M := @ret.
#[global] Instance M_bind : MBind M := λ A B k m, bind m k.

Definition lift {A} (r : res A) : M A :=
  λ w, match r with Ok a => Returned a w | Panic p => Panicked p w end.

Definition throw {A} (p : panic) : M A := λ w, Panicked p w.

(** [defer d] before [body]: [d] runs when [body] returns or panics. *)
Definition defer {A} (d : M unit) (body : M A) : M A :=
  λ w, match body w with
       | Returned a w' =>
           match d w' with
           | Returned _ w'' => Returned a w''
           | Panicked p w'' => Panicked p w''
           | Blocked w'' => Blocked w''
           end
       | Panicked p w' =>
           match d w' with
           | Returned _ w'' => Panicked p w''
           | Panicked q w'' => Panicked q w''
           | Blocked w'' => Blocked w''
           end
       | Blocked w' => Blocked w'
       end.

(** [for i := 0; i < n; i++ { body }], the loop state threaded through. *)
Fixpoint for_loop {S} (iters : nat) (i : Z) (body : Z → S → M S) (s : S) : M S :=
  match iters with
  | O => ret s
  | Datatypes.S k => s' ← body i s; for_loop k (i + 1) body s'
  end.

Definition for_range {S} (n : Z) (body : Z → S → M S) (s : S) : M S :=
  for_loop (Z.to_nat n) 0 body s.

(** *** Primitive actions *)

Definition set_e (w : world) (e' : epoll) : world :=
  {| os := os w; e := e'; logged := logged w |}.

Definition set_lock (w : world) (l : RWMutex) : world :=
  set_e w {| fd := fd (e w); connections := connections (e w); lock := l |}.

Definition set_connections (w : world) (m : gmap Z Conn) : world :=
  set_e w {| fd := fd (e w); connections := m; lock := lock (e w) |}.

Module sync.

Definition unlocked : RWMutex := {| writer := false; readers := 0 |}.

Definition Lock : M unit := λ w,
  let l := lock (e w) in
  if negb (writer l) && bool_decide (readers l = 0%nat)
  then Returned () (set_lock w {| writer := true; readers := 0 |})
  else Blocked w.

Definition Unlock : M unit := λ w,
  let l := lock (e w) in
  if writer l
  then Returned () (set_lock w {| writer := false; readers := readers l |})
  else Panicked FatalUnlock w.

Definition RLock : M unit := λ w,
  let l := lock (e w) in
  if negb (writer l)
  then Returned () (set_lock w {| writer := false; readers := Datatypes.S (readers l) |})
  else Blocked w.

Definition RUnlock : M unit := λ w,
  let l := lock (e w) in
  match readers l with
  | Datatypes.S r => Returned () (set_lock w {| writer := writer l; readers := r |})
  | O => Panicked FatalUnlock w
  end.

End sync.

(** [e.fd] *)
Definition e_fd : M Z := λ w, Returned (fd (e w)) w.

(** [e.connections[key] = conn] *)
Definition map_store (key : Z) (conn : Conn) : M unit :=
  λ w, Returned () (set_connections w (<[key := conn]> (connections (e w)))).

(** [delete(e.connections, key)] *)
Definition map_delete (key : Z) : M unit :=
  λ w, Returned () (set_connections w (delete key (connections (e w)))).

(** [e.connections[key]]: the zero value, a nil [net.Conn], when absent. *)
Definition map_load (key : Z) : M Conn :=
  λ w, Returned (default NilConn (connections (e w) !! key)) w.

(** [len(e.connections)] *)
Definition map_len : M Z :=
  λ w, Returned (Z.of_nat (size (connections (e w)))) w.

(** [log.Printf("total number of connections: %v", n)] *)
Definition log_Printf (n : Z) : M unit :=
  λ w, Returned () {| os := os w; e := e w; logged := logged w ++ [n] |}.

(** [events[i]] on a slice: panics out of range. *)
Definition index (events : list EpollEvent) (i : Z) : M EpollEvent :=
  if (0 <=? i) && (i <? Z.of_nat (length events))
  then ret (default zeroEvent (events !! Z.to_nat i))
  else throw (IndexOutOfRange i (length events)).

Definition sys_EpollCtl (fault : error) (epfd op sfd : Z) (event : option EpollEvent)
  : M error :=
  λ w, let '(k, err) := unix.EpollCtl fault epfd op sfd event (os w) in
       Returned err {| os := k; e := e w; logged := logged w |}.

Definition sys_EpollWait (wk : option unix.wake) (epfd : Z) (events : list EpollEvent) (msec : Z)
  : M (option (list EpollEvent * Z * error)) :=
  λ w, Returned (unix.EpollWait wk epfd events msec (os w)) w.

(** A call that never comes back. *)
Definition block {A} : M A := λ w, Blocked w.

(** ** The operations of [epoll] *)

(** [MkEpoll] (lines 25-37): on success the kernel has a new, empty epoll
    instance and the struct has its descriptor, a fresh lock and an empty
    map. *)
Definition MkEpoll (choice : unix.create_choice) (k : kernel)
  : kernel * (option epoll * error) :=
  let '(k', (fd, err)) := unix.EpollCreate1 choice 0 k in
  match err with
  | Some _ => (k', (None, err))
  | None => (k', (Some {| fd := fd; lock := sync.unlocked; connections := ∅ |}, None))
  end.

(** [Add] (lines 39-55).  [fault] is the failure, if any, that the kernel
    decides on by itself for the [EpollCtl] call. *)
Definition Add (fault : error) (conn : Conn) : M error :=
  sfd ← lift (socketFD conn);
  epfd ← e_fd;
  err ← sys_EpollCtl fault epfd syscall.EPOLL_CTL_ADD sfd
          (Some {| Events := Z.lor unix.POLLIN unix.POLLHUP; Fd := int32 sfd; Pad := 0 |});
  match err with
  | Some _ => mret err
  | None =>
      sync.Lock;;
      defer sync.Unlock (
        map_store sfd conn;;
        n ← map_len;
        (if bool_decide (n `rem` 100 = 0)
         then n' ← map_len; log_Printf n'
         else mret ());;
        mret None)
  end.

(** [Remove] (lines 57-73), with [fault] as in [Add]. *)
Definition Remove (fault : error) (conn : Conn) : M error :=
  sfd ← lift (socketFD conn);
  epfd ← e_fd;
  err ← sys_EpollCtl fault epfd syscall.EPOLL_CTL_DEL sfd None;
  match err with
  | Some _ => mret err
  | None =>
      sync.Lock;;
      defer sync.Unlock (
        map_delete sfd;;
        n ← map_len;
        (if bool_decide (n `rem` 100 = 0)
         then n' ← map_len; log_Printf n'
         else mret ());;
        mret None)
  end.

(** The translation loop of [Wait] (lines 89-93). *)
Definition Wait_translate (n : Z) (events : list EpollEvent) : M (list Conn) :=
  for_range n (λ i conns,
    ev ← index events i;
    conn ← map_load (int (Fd ev));
    mret (conns ++ [conn])) [].

(** Lines 87-94 of [Wait], after a successful [epoll_wait]. *)
Definition Wait_finish (n : Z) (events : list EpollEvent) : M (list Conn * error) :=
  sync.RLock;;
  defer sync.RUnlock (
    conns ← Wait_translate n events;
    mret (conns, None)).

(** [Wait] from the label [retry] on (lines 77-94).  [wakes] lists the
    wake-ups of the kernel from now on; when it is used up the call is
    still waiting.  A wake-up that leaves [epoll_wait] blocked is passed
    over; EINTR jumps back to [retry], where the next wake-up is awaited. *)
Fixpoint Wait_retry (wakes : list unix.wake) (events : list EpollEvent)
  : M (list Conn * error) :=
  epfd ← e_fd;
  r ← sys_EpollWait (head wakes) epfd events 100;
  match r with
  | None =>
      match wakes with
      | [] => block
      | _ :: wakes' => Wait_retry wakes' events
      end
  | Some (events', n, Some err) =>
      if decide (err = EINTR)
      then match wakes with
           | [] => block
           | _ :: wakes' => Wait_retry wakes' events'
           end
      else mret ([], Some err)
  | Some (events', n, None) => Wait_finish n events'
  end.

(** [Wait] (lines 75-95). *)
Definition Wait (wakes : list unix.wake) : M (list Conn * error) :=
  Wait_retry wakes (replicate 100 zeroEvent).

(** The world a program starts in once [MkEpoll] has returned [ep], and
    the world a call leaves behind. *)
Definition world_of (k : kernel) (ep : epoll) : world :=
  {| os := k; e := ep; logged := [] |}.

Definition after {A} (o : outcome A) : world :=
  match o with
  | Returned _ w | Panicked _ w | Blocked w => w
  end.

(** ** Concurrent calls of [Add]

    Each call runs in an execution context of its own and takes one
    scheduling step at a time: the system call, the acquisition of the
    lock, the store into the map, the count and log, the deferred unlock.
    The steps are the primitives of [Add] above. *)

Inductive add_pc : Type :=
| AddStart                  (* line 41: about to resolve the descriptor and call EpollCtl *)
| AddLock (sfd : Z)         (* line 47: at e.lock.Lock() *)
| AddStore (sfd : Z)        (* line 50: holds the lock, at e.connections[fd] = conn *)
| AddLog (sfd : Z)          (* lines 51-53: holds the lock, at the count and log *)
| AddUnlock                 (* line 48: the deferred e.lock.Unlock() *)
| AddDone (err : error)     (* returned *)
| AddPanicked (p : panic).

Record add_thread : Type := {
  a_conn : Conn;
  a_fault : error;
  a_pc : add_pc
}.

Definition spawn (conn : Conn) (fault : error) : add_thread :=
  {| a_conn := conn; a_fault := fault; a_pc := AddStart |}.

Definition at_pc (t : add_thread) (pc : add_pc) : add_thread :=
  {| a_conn := a_conn t; a_fault := a_fault t; a_pc := pc |}.

(** One step of a thread: the action [m], then on to [next]; no step while
    the action cannot proceed. *)
Definition via {A} (t : add_thread) (m : M A) (next : A → add_pc) (w : world)
  : option (add_thread * world) :=
  match m w with
  | Returned a w' => Some (at_pc t (next a), w')
  | Panicked p w' => Some (at_pc t (AddPanicked p), w')
  | Blocked _ => None
  end.

Definition add_step (t : add_thread) (w : world) : option (add_thread * world) :=
  match a_pc t with
  | AddStart =>
      via t (sfd ← lift (socketFD (a_conn t));
             epfd ← e_fd;
             err ← sys_EpollCtl (a_fault t) epfd syscall.EPOLL_CTL_ADD sfd
                     (Some {| Events := Z.lor unix.POLLIN unix.POLLHUP;
                              Fd := int32 sfd; Pad := 0 |});
             mret (sfd, err))
          (λ r, match r.2 with
                | Some err => AddDone (Some err)
                | None => AddLock r.1
                end) w
  | AddLock sfd => via t sync.Lock (λ _, AddStore sfd) w
  | AddStore sfd => via t (map_store sfd (a_conn t)) (λ _, AddLog sfd) w
  | AddLog sfd =>
      via t (n ← map_len;
             if bool_decide (n `rem` 100 = 0)
             then n' ← map_len; log_Printf n'
             else mret ())
          (λ _, AddUnlock) w
  | AddUnlock => via t sync.Unlock (λ _, AddDone None) w
  | AddDone _ | AddPanicked _ => None
  end.

(** A thread run on its own, for at most [fuel] steps. *)
Fixpoint run_thread (fuel : nat) (t : add_thread) (w : world) : add_thread * world :=
  match fuel with
  | O => (t, w)
  | S fuel' =>
      match add_step t w with
      | Some (t', w') => run_thread fuel' t' w'
      | None => (t, w)
      end
  end.

Definition thread_outcome (tw : add_thread * world) : outcome error :=
  match a_pc tw.1 with
  | AddDone err => Returned err tw.2
  | AddPanicked p => Panicked p tw.2
  | _ => Blocked tw.2
  end.

(** The threads and the world they share; the scheduler picks thread [i]. *)
Definition config : Type := list add_thread * world.

Definition sched_step (i : nat) (c : config) : option config :=
  t ← c.1 !! i;
  '(t', w') ← add_step t c.2;
  Some (<[i := t']> c.1, w').

Definition pool_step (c c' : config) : Prop :=
  ∃ i, sched_step i c = Some c'.

Fixpoint run_schedule (sched : list nat) (c : config) : option config :=
  match sched with
  | [] => Some c
  | i :: sched' => c' ← sched_step i c; run_schedule sched' c'
  end.

(** The program points inside the critical section, and those after the
    store. *)
Definition in_cs (pc : add_pc) : bool :=
  match pc with
  | AddStore _ | AddLog _ | AddUnlock => true
  | _ => false
  end.

Definition stored (pc : add_pc) : bool :=
  match pc with
  | AddLog _ | AddUnlock | AddDone None => true
  | _ => false
  end.

(** The descriptor a thread keeps in its local variable [fd]. *)
Definition local_fd (pc : add_pc) : option Z :=
  match pc with
  | AddLock sfd | AddStore sfd | AddLog sfd => Some sfd
  | _ => None
  end.

(** What holds of the threads adding [conns], with descriptors [fds], in
    every state of a run that started in world [w0]: each thread works on
    its own connection and descriptor; the table holds the entry of every
    thread that has stored, and is as in [w0] elsewhere; at most one
    thread is inside the critical section, and one is exactly when the
    lock is held by a writer. *)
Record pool_inv (conns : list Conn) (fds : list Z) (w0 : world) (c : config) : Prop := {
  pi_conns : a_conn <$> c.1 = conns;
  pi_local : ∀ i t sfd, c.1 !! i = Some t → local_fd (a_pc t) = Some sfd →
                        fds !! i = Some sfd;
  pi_stored : ∀ i t sfd, c.1 !! i = Some t → fds !! i = Some sfd →
                         stored (a_pc t) = true →
                         connections (e c.2) !! sfd = Some (a_conn t);
  pi_others : ∀ k, (∀ i t, c.1 !! i = Some t → fds !! i = Some k →
                           stored (a_pc t) = false) →
                   connections (e c.2) !! k = connections (e w0) !! k;
  pi_readers : readers (lock (e c.2)) = 0%nat;
  pi_excl : ∀ i j ti tj, c.1 !! i = Some ti → c.1 !! j = Some tj →
                         in_cs (a_pc ti) = true → in_cs (a_pc tj) = true → i = j;
  pi_writer : writer (lock (e c.2)) = true ↔
              ∃ i t, c.1 !! i = Some t ∧ in_cs (a_pc t) = true
}.

(** The call has returned or panicked. *)
Definition finished (pc : add_pc) : bool :=
  match pc with
  | AddDone _ | AddPanicked _ => true
  | _ => false
  end.

(** ** Closed forms used by the proofs *)

(** The event record [Add] registers a descriptor with (line 42). *)
Definition registration (sfd : Z) : EpollEvent :=
  {| Events := Z.lor unix.POLLIN unix.POLLHUP; Fd := int32 sfd; Pad := 0 |}.

Definition lock_free (l : RWMutex) : bool :=
  negb (writer l) && bool_decide (readers l = 0%nat).

(** The world after the critical section of [Add] or [Remove] has stored
    the map [m]: the count is logged when it is a multiple of 100, and the
    lock is released. *)
Definition committed (k : kernel) (w : world) (m : gmap Z Conn) : world :=
  {| os := k;
     e := {| fd := fd (e w); connections := m;
             lock := {| writer := false; readers := 0 |} |};
     logged := if bool_decide (Z.of_nat (size m) `rem` 100 = 0)
               then logged w ++ [Z.of_nat (size m)] else logged w |}.

Definition with_kernel (k : kernel) (w : world) : world :=
  {| os := k; e := e w; logged := logged w |}.

(** The handle [Wait] puts in its result for a reported event record
    (line 91): the map's entry for [int(ev.Fd)], nil when there is none. *)
Definition lookup_conn (m : gmap Z Conn) (ev : EpollEvent) : Conn :=
  default NilConn (m !! int (Fd ev)).

(** ** Notions the statements use *)

(** The descriptors registered with the kernel for [e.fd], and the keys
    of [e.connections]. *)
Definition registered (w : world) : gset Z :=
  match interest w with
  | Some il => dom il
  | None => ∅
  end.

Definition tracked (w : world) : gset Z := dom (connections (e w)).

(** The epoll instance of the world is in place, with interest list [il]. *)
Definition live (w : world) (il : gmap Z EpollEvent) : Prop :=
  unix.is_open (os w) (fd (e w)) = true ∧ interest w = Some il.

(** Every record of the interest list is the one [Add] registers for its
    descriptor. *)
Definition registered_by_Add (il : gmap Z EpollEvent) : Prop :=
  ∀ sfd ev, il !! sfd = Some ev → ev = registration sfd ∧ 0 ≤ sfd < 2 ^ 31.

(** A wake-up after which [Wait] is still waiting: a signal, or readiness
    of descriptors none of which is registered. *)
Definition passed_over (il : gmap Z EpollEvent) (wk : unix.wake) : bool :=
  match wk with
  | unix.Fault err => bool_decide (err = EINTR)
  | unix.Timeout => false
  | unix.Ready fds => bool_decide (unix.reported il fds = [])
  end.

(** The worlds a program gets to by creating the multiplexer and calling
    its operations one after the other. *)
Inductive reachable : world → Prop :=
| reach_MkEpoll choice k k' ep :
    MkEpoll choice k = (k', (Some ep, None)) → reachable (world_of k' ep)
| reach_Add fault conn w :
    reachable w → reachable (after (Add fault conn w))
| reach_Remove fault conn w :
    reachable w → reachable (after (Remove fault conn w))
| reach_Wait wakes w :
    reachable w → reachable (after (Wait wakes w)).

(** What holds between calls. *)
Record Inv (w : world) : Prop := {
  inv_live : ∃ il, live w il ∧ registered_by_Add il;
  inv_keys : tracked w = registered w;
  inv_lock : lock (e w) = sync.unlocked
}.

(** ** Further notions *)

(** Every table entry sits under the descriptor its handle resolves to. *)
Definition entries_ok (w : world) : Prop :=
  ∀ k c, connections (e w) !! k = Some c → socketFD c = Ok k.

(** Every count in the log is a multiple of 100, zero included. *)
Definition log_ok (w : world) : Prop :=
  Forall (λ n, 0 ≤ n ∧ n `rem` 100 = 0) (logged w).

(** Every registered descriptor is open and is not the epoll instance. *)
Definition registered_open (w : world) : Prop :=
  ∀ sfd, sfd ∈ registered w →
         unix.is_open (os w) sfd = true ∧ sfd ≠ fd (e w).

(** What more holds between calls. *)
Record Inv_more (w : world) : Prop := {
  im_entries : entries_ok w;
  im_log : log_ok w;
  im_open : registered_open w
}.

(** Everything a call has no business with is in [w'] as in [w]: the
    descriptor of the multiplexer, the open descriptors of the process and
    the other epoll instances. *)
Definition same_elsewhere (w w' : world) : Prop :=
  fd (e w') = fd (e w) ∧ open_fds (os w') = open_fds (os w) ∧
  ∀ epfd, epfd ≠ fd (e w) → epolls (os w') !! epfd = epolls (os w) !! epfd.

(** The steps a call to [Add] has still to take at a program point, at
    most, and the steps all the threads together have still to take. *)
Definition steps_left (pc : add_pc) : nat :=
  match pc with
  | AddStart => 5
  | AddLock _ => 4
  | AddStore _ => 3
  | AddLog _ => 2
  | AddUnlock => 1
  | AddDone _ | AddPanicked _ => 0
  end.

Definition work (ts : list add_thread) : nat :=
  sum_list ((λ t, steps_left (a_pc t)) <$> ts).

(** ** Examples

    A process with descriptors 0, 1, 2 and 5 to 7 open creates the
    multiplexer and gets descriptor 3 for it. *)

Definition kernel0 : kernel :=
  {| open_fds := {[0; 1; 2; 5; 6; 7]}; epolls := ∅ |}.

Definition world0 : world :=
  match MkEpoll (unix.NewFd 3) kernel0 with
  | (k, (Some ep, _)) => world_of k ep
  | (k, (None, _)) => world_of k {| fd := -1; connections := ∅; lock := sync.unlocked |}
  end.

(** Two connections on descriptors 5 and 6, a second handle on
    descriptor 5, and a closed connection. *)
Definition conn5 : Conn := TCPConn 1 5.
Definition conn6 : Conn := TCPConn 2 6.
Definition conn5' : Conn := TCPConn 3 5.
Definition closedConn : Conn := TCPConn 4 (-1).

(** A handle that is not a TCP connection: it wraps another [net.Conn]
    in a field [conn] of interface type, as [*tls.Conn] does. *)
Definition wrappedConn : Conn :=
  MkConn 9 (PtrV (Some (StructV [("conn", OtherV); ("isClient", OtherV)]))).

(** The world after [Add(conn5); Add(conn6)]. *)
Definition world2 : world :=
  after (Add None conn6 (after (Add None conn5 world0))).

(** A multiplexer with 150 connections registered, on descriptors 10 to
    159. *)
Definition kernel_many : kernel :=
  {| open_fds := list_to_set (seqZ 4 296); epolls := ∅ |}.

Definition world_many : world :=
  foldl (λ w sfd, after (Add None (TCPConn (Z.to_nat sfd) sfd) w))
    (match MkEpoll (unix.NewFd 3) kernel_many with
     | (k, (Some ep, _)) => world_of k ep
     | (k, (None, _)) => world_of k {| fd := -1; connections := ∅; lock := sync.unlocked |}
     end)
    (seqZ 10 150).

(** [world2] at the moment a concurrent [Add] of a connection on descriptor
    7 has registered it with the kernel and not yet stored it in the map. *)
Definition world_mid_Add : world :=
  with_kernel
    (unix.EpollCtl None 3 syscall.EPOLL_CTL_ADD 7 (Some (registration 7)) (os world2)).1
    world2.

(** Three contexts adding three connections to the fresh multiplexer, and
    a schedule that interleaves them: the three system calls first, then
    the critical sections of the second, the third and the first. *)
Definition conn7 : Conn := TCPConn 5 7.

Definition three_adds : config :=
  (zip_with spawn [conn5; conn6; conn7] [None; None; None], world0).

Definition interleaved : list nat :=
  [0; 1; 2; 1; 1; 1; 1; 2; 2; 2; 2; 0; 0; 0; 0]%nat.

Definition after_three_adds : config :=
  default three_adds (run_schedule interleaved three_adds).

(** [world2] after its epoll descriptor has been closed. *)
Definition world_closed : world :=
  {| os := {| open_fds := open_fds (os world2) ∖ {[3]};
              epolls := delete 3 (epolls (os world2)) |};
     e := e world2; logged := logged world2 |}.

(** * Verification *)

(** ** The system calls *)

Lemma EpollCtl_failure_keeps_kernel fault epfd op sfd ev k k' err :
  unix.EpollCtl fault epfd op sfd ev k = (k', Some err) → k' = k.
Proof.
  unfold unix.EpollCtl. intros H.
  repeat (case_match; simplify_eq; try done).
Qed.

(** ** [Add] and [Remove] in closed form *)

Lemma with_kernel_same w : with_kernel (os w) w = w.
Proof. by destruct w. Qed.

Lemma Add_unfold fault conn sfd w :
  socketFD conn = Ok sfd →
  Add fault conn w =
    match unix.EpollCtl fault (fd (e w)) syscall.EPOLL_CTL_ADD sfd
            (Some (registration sfd)) (os w) with
    | (k, Some err) => Returned (Some err) (with_kernel k w)
    | (k, None) =>
        if lock_free (lock (e w))
        then Returned None (committed k w (<[sfd := conn]> (connections (e w))))
        else Blocked (with_kernel k w)
    end.
Proof.
  intros Hfd. unfold Add, mbind, M_bind, bind, lift. rewrite Hfd. simpl.
  unfold sys_EpollCtl, registration.
  destruct (unix.EpollCtl _ _ _ _ _ _) as [k [err|]]; [done|].
  unfold sync.Lock, lock_free, defer. simpl.
  destruct (negb _ && _) eqn:Hl; [|done]. simpl.
  unfold committed, log_Printf, map_len. simpl.
  by destruct (bool_decide (_ `rem` _ = _)).
Qed.

Lemma Remove_unfold fault conn sfd w :
  socketFD conn = Ok sfd →
  Remove fault conn w =
    match unix.EpollCtl fault (fd (e w)) syscall.EPOLL_CTL_DEL sfd None (os w) with
    | (k, Some err) => Returned (Some err) (with_kernel k w)
    | (k, None) =>
        if lock_free (lock (e w))
        then Returned None (committed k w (delete sfd (connections (e w))))
        else Blocked (with_kernel k w)
    end.
Proof.
  intros Hfd. unfold Remove, mbind, M_bind, bind, lift. rewrite Hfd. simpl.
  unfold sys_EpollCtl.
  destruct (unix.EpollCtl _ _ _ _ _ _) as [k [err|]]; [done|].
  unfold sync.Lock, lock_free, defer. simpl.
  destruct (negb _ && _) eqn:Hl; [|done]. simpl.
  unfold committed, log_Printf, map_len. simpl.
  by destruct (bool_decide (_ `rem` _ = _)).
Qed.

Lemma Add_panics fault conn p w :
  socketFD conn = Panic p → Add fault conn w = Panicked p w.
Proof. intros H. unfold Add, mbind, M_bind, bind, lift. by rewrite H. Qed.

Lemma Remove_panics fault conn p w :
  socketFD conn = Panic p → Remove fault conn w = Panicked p w.
Proof. intros H. unfold Remove, mbind, M_bind, bind, lift. by rewrite H. Qed.

(** ** [Wait] in closed form *)

Lemma EpollWait_success wk epfd events msec k events' n :
  unix.EpollWait wk epfd events msec k = Some (events', n, None) →
  length events' = length events ∧
  ((n = 0 ∧ wk = Some unix.Timeout ∧ 0 ≤ msec ∧ events' = events) ∨
   (∃ fds il, wk = Some (unix.Ready fds) ∧ epolls k !! epfd = Some il ∧
      0 < n ≤ Z.of_nat (length events) ∧
      take (Z.to_nat n) events' = take (length events) (unix.reported il fds))).
Proof.
  unfold unix.EpollWait. intros H.
  destruct (negb _); [done|]. destruct (epolls k !! epfd) as [il|]; [|done].
  case_bool_decide as Hlen; [done|]. destruct wk as [[fds| |err]|]; [| |done|done].
  - set (evs := take (length events) (unix.reported il fds)) in *.
    case_bool_decide as Hevs; [done|]. simplify_eq.
    assert (length evs ≤ length events)%nat by (unfold evs; rewrite length_take; lia).
    split.
    + rewrite length_app, length_drop. lia.
    + right. exists fds, il. split_and!; try done.
      * destruct evs; [done|]. simpl. lia.
      * lia.
      * rewrite Nat2Z.id. by rewrite take_app_length.
  - destruct (0 <=? msec) eqn:Hm; [|done]. simplify_eq.
    split; [done|]. left. split_and!; try done. lia.
Qed.

Lemma EpollWait_failure wk epfd events msec k events' n err :
  unix.EpollWait wk epfd events msec k = Some (events', n, Some err) →
  events' = events.
Proof.
  unfold unix.EpollWait. intros H.
  repeat (case_match; simplify_eq; try done).
Qed.

(** EINTR comes from a wake-up only, never from the entry checks. *)
Lemma EpollWait_EINTR wk epfd events msec k events' n :
  unix.EpollWait wk epfd events msec k = Some (events', n, Some EINTR) →
  wk = Some (unix.Fault EINTR).
Proof.
  unfold unix.EpollWait. intros H.
  repeat (case_match; simplify_eq; try done).
Qed.

Lemma for_loop_translate m w (events : list EpollEvent) iters (idx : nat) acc :
  connections (e w) = m →
  (idx + iters ≤ length events)%nat →
  for_loop iters (Z.of_nat idx)
    (λ i conns, ev ← index events i; conn ← map_load (int (Fd ev)); mret (conns ++ [conn]))
    acc w
  = Returned (acc ++ (lookup_conn m <$> take iters (drop idx events))) w.
Proof.
  intros Hm. revert idx acc. induction iters as [|iters IH]; intros idx acc Hlen.
  - simpl. unfold ret. by rewrite app_nil_r.
  - destruct (lookup_lt_is_Some_2 events idx) as [ev Hev]; [lia|].
    cbn [for_loop]. unfold mbind at 1, M_bind at 1, bind at 1.
    unfold mbind at 1, M_bind at 1, bind at 1. unfold index.
    replace ((0 <=? Z.of_nat idx) && (Z.of_nat idx <? Z.of_nat (length events)))
      with true by (symmetry; apply andb_true_iff; split; [apply Z.leb_le|apply Z.ltb_lt]; lia).
    unfold ret at 1. rewrite Nat2Z.id, Hev. simpl.
    unfold mbind at 1, M_bind at 1, bind at 1. unfold map_load at 1.
    unfold mret at 1, M_ret at 1, ret at 1.
    replace (Z.of_nat idx + 1) with (Z.of_nat (S idx)) by lia.
    rewrite IH by lia. rewrite Hm.
    rewrite (drop_S _ _ _ Hev). simpl. by rewrite <- app_assoc.
Qed.

Lemma Wait_translate_eq n (events : list EpollEvent) w :
  0 ≤ n ≤ Z.of_nat (length events) →
  Wait_translate n events w
  = Returned (lookup_conn (connections (e w)) <$> take (Z.to_nat n) events) w.
Proof.
  intros Hn. unfold Wait_translate, for_range.
  change 0 with (Z.of_nat 0).
  rewrite (for_loop_translate (connections (e w))); [done|done|lia].
Qed.

Lemma Wait_finish_eq n (events : list EpollEvent) w :
  0 ≤ n ≤ Z.of_nat (length events) →
  Wait_finish n events w
  = if writer (lock (e w)) then Blocked w
    else Returned (lookup_conn (connections (e w)) <$> take (Z.to_nat n) events, None) w.
Proof.
  intros Hn. unfold Wait_finish, mbind, M_bind, bind, sync.RLock, defer.
  destruct w as [k [epfd m [wr rd]] lg]. simpl. destruct wr; simpl; [done|].
  rewrite Wait_translate_eq by done. done.
Qed.

Lemma Wait_retry_unfold wakes events w :
  Wait_retry wakes events w =
    match unix.EpollWait (head wakes) (fd (e w)) events 100 (os w) with
    | None => match wakes with [] => Blocked w | _ :: wakes' => Wait_retry wakes' events w end
    | Some (events', n, Some err) =>
        if decide (err = EINTR)
        then match wakes with [] => Blocked w | _ :: wakes' => Wait_retry wakes' events' w end
        else Returned ([], Some err) w
    | Some (events', n, None) => Wait_finish n events' w
    end.
Proof.
  destruct wakes as [|wk wakes]; cbn [Wait_retry];
    unfold mbind at 1, M_bind at 1, bind at 1, e_fd at 1;
    unfold mbind at 1, M_bind at 1, bind at 1, sys_EpollWait at 1;
    destruct (unix.EpollWait _ _ _ _ _) as [[[events' n] [err|]]|]; try done;
    by destruct (decide _).
Qed.

(** ** What a successful [EpollCtl] does *)

Lemma EpollCtl_ADD_success fault epfd sfd ev k k' :
  unix.EpollCtl fault epfd syscall.EPOLL_CTL_ADD sfd (Some ev) k = (k', None) →
  ∃ il, epolls k !! epfd = Some il ∧ il !! sfd = None ∧
        unix.is_open k sfd = true ∧
        k' = unix.set_interest k epfd (<[sfd := ev]> il).
Proof.
  unfold unix.EpollCtl. intros H.
  destruct fault; [done|].
  destruct (unix.is_open k epfd) eqn:Ho1; [|done].
  destruct (unix.is_open k sfd) eqn:Ho2; [|done]. simpl in H.
  destruct (epolls k !! epfd) as [il|]; [|done].
  case_bool_decide; [done|].
  destruct (il !! sfd) eqn:Hl; [done|]. simplify_eq. by exists il.
Qed.

Lemma EpollCtl_DEL_success fault epfd sfd ev k k' :
  unix.EpollCtl fault epfd syscall.EPOLL_CTL_DEL sfd ev k = (k', None) →
  ∃ il, epolls k !! epfd = Some il ∧ is_Some (il !! sfd) ∧
        k' = unix.set_interest k epfd (delete sfd il).
Proof.
  unfold unix.EpollCtl. intros H.
  destruct fault; [done|].
  destruct (unix.is_open k epfd && unix.is_open k sfd); [|done]. simpl in H.
  destruct (epolls k !! epfd) as [il|]; [|done].
  case_bool_decide; [done|].
  destruct (il !! sfd) eqn:Hl; [|done]. simplify_eq. exists il. eauto.
Qed.

Lemma EpollCtl_DEL_unregistered fault epfd sfd ev k il :
  epolls k !! epfd = Some il → il !! sfd = None →
  ∃ err, unix.EpollCtl fault epfd syscall.EPOLL_CTL_DEL sfd ev k = (k, Some err).
Proof.
  intros Hil Hs.
  destruct (unix.EpollCtl fault epfd syscall.EPOLL_CTL_DEL sfd ev k) as [k' [err|]] eqn:H.
  - exists err. by rewrite (EpollCtl_failure_keeps_kernel _ _ _ _ _ _ _ _ H).
  - apply EpollCtl_DEL_success in H as (il' & Hil' & [x Hx] & _). naive_solver.
Qed.

Lemma EpollCtl_no_instance fault epfd op sfd ev k :
  epolls k !! epfd = None →
  ∃ err, unix.EpollCtl fault epfd op sfd ev k = (k, Some err).
Proof.
  intros Hil. unfold unix.EpollCtl. rewrite Hil.
  destruct fault; [eauto|]. destruct (negb _); eauto.
Qed.

(** ** The invariant *)

Lemma registered_live w il : live w il → registered w = dom il.
Proof. intros [_ H]. unfold registered. by rewrite H. Qed.

Lemma Inv_committed_insert w il sfd conn :
  Inv w → live w il → il !! sfd = None → unix.is_open (os w) sfd = true →
  Inv (committed (unix.set_interest (os w) (fd (e w)) (<[sfd := registration sfd]> il)) w
         (<[sfd := conn]> (connections (e w)))).
Proof.
  intros [(il' & Hlive' & Hreg) Hkeys Hlock] Hlive Hnone Hopen.
  assert (il' = il) as -> by (destruct Hlive, Hlive'; congruence).
  destruct Hlive as [Ho Hil].
  assert (live (committed (unix.set_interest (os w) (fd (e w)) (<[sfd := registration sfd]> il)) w
         (<[sfd := conn]> (connections (e w)))) (<[sfd := registration sfd]> il)) as Hl.
  { split; [done|]. unfold interest. simpl. by rewrite lookup_insert_eq. }
  split.
  - exists (<[sfd := registration sfd]> il). split; [done|].
    intros x ev. rewrite lookup_insert. case_decide as Hx.
    + intros [= <-]. subst x. split; [done|].
      unfold unix.is_open in Hopen. apply andb_prop in Hopen as [Hr _].
      apply andb_prop in Hr as [?%Z.leb_le ?%Z.ltb_lt]. lia.
    + apply Hreg.
  - rewrite (registered_live _ _ Hl). unfold tracked in *. simpl.
    rewrite !dom_insert_L, Hkeys. by rewrite (registered_live w il).
  - done.
Qed.

Lemma Inv_committed_delete w il sfd :
  Inv w → live w il →
  Inv (committed (unix.set_interest (os w) (fd (e w)) (delete sfd il)) w
         (delete sfd (connections (e w)))).
Proof.
  intros [(il' & Hlive' & Hreg) Hkeys Hlock] Hlive.
  assert (il' = il) as -> by (destruct Hlive, Hlive'; congruence).
  destruct Hlive as [Ho Hil].
  assert (live (committed (unix.set_interest (os w) (fd (e w)) (delete sfd il)) w
         (delete sfd (connections (e w)))) (delete sfd il)) as Hl.
  { split; [done|]. unfold interest. simpl. by rewrite lookup_insert_eq. }
  split.
  - exists (delete sfd il). split; [done|].
    intros x ev. rewrite lookup_delete. case_decide; [done|]. apply Hreg.
  - rewrite (registered_live _ _ Hl). unfold tracked in *. simpl.
    rewrite !dom_delete_L, Hkeys. by rewrite (registered_live w il).
  - done.
Qed.

Lemma Inv_lock_free w : Inv w → lock_free (lock (e w)) = true.
Proof. intros [_ _ H]. by rewrite H. Qed.

Lemma Inv_Add fault conn w : Inv w → Inv (after (Add fault conn w)).
Proof.
  intros HI. destruct (socketFD conn) as [sfd|p] eqn:Hfd.
  - rewrite (Add_unfold _ _ sfd) by done.
    destruct (unix.EpollCtl _ _ _ _ _ _) as [k [err|]] eqn:Hctl.
    + apply EpollCtl_failure_keeps_kernel in Hctl as ->. simpl.
      by rewrite with_kernel_same.
    + rewrite Inv_lock_free by done. simpl.
      apply EpollCtl_ADD_success in Hctl as (il & Hil & Hnone & Hopen & ->).
      destruct HI as [(il' & Hlive & Hreg) Hkeys Hlock].
      assert (il' = il) as -> by (destruct Hlive; unfold interest in *; congruence).
      apply Inv_committed_insert; try done. by split; [eexists|..].
  - by rewrite (Add_panics _ _ p).
Qed.

Lemma Inv_Remove fault conn w : Inv w → Inv (after (Remove fault conn w)).
Proof.
  intros HI. destruct (socketFD conn) as [sfd|p] eqn:Hfd.
  - rewrite (Remove_unfold _ _ sfd) by done.
    destruct (unix.EpollCtl _ _ _ _ _ _) as [k [err|]] eqn:Hctl.
    + apply EpollCtl_failure_keeps_kernel in Hctl as ->. simpl.
      by rewrite with_kernel_same.
    + rewrite Inv_lock_free by done. simpl.
      apply EpollCtl_DEL_success in Hctl as (il & Hil & _ & ->).
      destruct HI as [(il' & Hlive & Hreg) Hkeys Hlock].
      assert (il' = il) as -> by (destruct Hlive; unfold interest in *; congruence).
      apply Inv_committed_delete; try done. by split; [eexists|..].
  - by rewrite (Remove_panics _ _ p).
Qed.

(** ** How [Wait] can end *)

Lemma Wait_retry_cases wakes events w :
  Wait_retry wakes events w = Blocked w ∨
  (∃ errno, errno ≠ EINTR ∧ Wait_retry wakes events w = Returned ([], Some errno) w) ∨
  (unix.Timeout ∈ wakes ∧ Wait_retry wakes events w = Returned ([], None) w) ∨
  (∃ fds il, unix.Ready fds ∈ wakes ∧ interest w = Some il ∧
     unix.reported il fds ≠ [] ∧ events ≠ [] ∧
     Wait_retry wakes events w =
       Returned (lookup_conn (connections (e w)) <$>
                   take (length events) (unix.reported il fds), None) w).
Proof.
  revert events. induction wakes as [|wk wakes IH]; intros events;
    rewrite Wait_retry_unfold;
    destruct (unix.EpollWait _ _ _ _ _) as [[[events' n] [err|]]|] eqn:Hsys.
  - destruct (decide (err = EINTR)) as [->|Hne]; [|right; left; by exists err].
    by left.
  - by apply EpollWait_success in Hsys as [_ [(_ & ? & _)|(? & ? & ? & _)]].
  - by left.
  - destruct (decide (err = EINTR)) as [->|Hne]; [|right; left; by exists err].
    apply EpollWait_failure in Hsys as ->.
    destruct (IH events) as [H|[(x & ? & H)|[[? H]|(fds & il & ? & ? & ? & ? & H)]]].
    + by left.
    + right; left. by exists x.
    + right; right; left. split; [by apply list_elem_of_further|done].
    + right; right; right. exists fds, il. split_and!; try done.
      by apply list_elem_of_further.
  - apply EpollWait_success in Hsys as (Hlen & Hcase).
    assert (0 ≤ n ≤ Z.of_nat (length events')) as Hn
      by (rewrite Hlen; destruct Hcase as [(-> & _)|(? & ? & _ & _ & ? & _)]; lia).
    rewrite Wait_finish_eq by done. destruct (writer _); [by left|].
    destruct Hcase as [(-> & Hwk & _ & ->)|(fds & il & Hwk & Hil & Hn' & Htake)].
    + right; right; left. split; [|done].
      simpl in Hwk. injection Hwk as ->. apply list_elem_of_here.
    + right; right; right. exists fds, il.
      simpl in Hwk. injection Hwk as ->. rewrite Htake.
      split_and!; try done.
      * apply list_elem_of_here.
      * intros Hnil. rewrite Hnil, take_nil in Htake.
        apply (f_equal length) in Htake. rewrite length_take in Htake.
        simpl in Htake. lia.
      * intros ->. simpl in *. lia.
  - destruct (IH events) as [H|[(x & ? & H)|[[? H]|(fds & il & ? & ? & ? & ? & H)]]].
    + by left.
    + right; left. by exists x.
    + right; right; left. split; [by apply list_elem_of_further|done].
    + right; right; right. exists fds, il. split_and!; try done.
      by apply list_elem_of_further.
Qed.

(** The four ways [Wait wakes w] can end, the equation of each as [H]. *)
Ltac wait_cases wakes w H :=
  destruct (Wait_retry_cases wakes (replicate 100 zeroEvent) w)
    as [H|[(? & ? & H)|[[? H]|(? & ? & ? & ? & ? & ? & H)]]].

Lemma Wait_keeps_world wakes w : after (Wait wakes w) = w.
Proof. unfold Wait. wait_cases wakes w H; by rewrite H. Qed.

Lemma Inv_MkEpoll choice k k' ep :
  MkEpoll choice k = (k', (Some ep, None)) → Inv (world_of k' ep).
Proof.
  unfold MkEpoll, unix.EpollCreate1. intros H.
  destruct choice as [x|err]; [|done]. simpl in H.
  destruct (_ && _) eqn:Hx; [|done]. simplify_eq.
  apply andb_prop in Hx as [Hr Hfresh]. split.
  - exists ∅. split; [split|done].
    + unfold unix.is_open. simpl. rewrite Hr. simpl.
      apply bool_decide_eq_true_2. set_solver.
    + unfold interest. simpl. by rewrite lookup_insert_eq.
  - unfold tracked, registered, interest. simpl.
    rewrite lookup_insert_eq. by rewrite !dom_empty_L.
  - done.
Qed.

Lemma reachable_Inv w : reachable w → Inv w.
Proof.
  induction 1 as [choice k k' ep H| | |].
  - by eapply Inv_MkEpoll.
  - by apply Inv_Add.
  - by apply Inv_Remove.
  - by rewrite Wait_keeps_world.
Qed.

(** ** [Wait], wake-up by wake-up *)

Lemma EpollWait_live wk w il events msec :
  live w il → events ≠ [] →
  unix.EpollWait wk (fd (e w)) events msec (os w) =
    match wk with
    | None => None
    | Some (unix.Fault err) => Some (events, -1, Some err)
    | Some unix.Timeout => if 0 <=? msec then Some (events, 0, None) else None
    | Some (unix.Ready fds) =>
        let evs := take (length events) (unix.reported il fds) in
        if bool_decide (evs = []) then None
        else Some (evs ++ drop (length evs) events, Z.of_nat (length evs), None)
    end.
Proof.
  intros [Ho Hil] Hev. unfold unix.EpollWait, interest in *. rewrite Ho, Hil. simpl.
  rewrite bool_decide_eq_false_2; [done|]. by destruct events.
Qed.

Lemma EpollWait_entry w events msec :
  (∃ err, err ≠ EINTR ∧
     ∀ wk, unix.EpollWait wk (fd (e w)) events msec (os w) = Some (events, -1, Some err)) ∨
  (∃ il, live w il ∧ events ≠ []).
Proof.
  unfold unix.EpollWait, live, interest.
  destruct (unix.is_open _ _); [|left; by exists EBADF].
  destruct (epolls _ !! _) as [il|]; [|left; by exists EINVAL].
  destruct events as [|ev events]; [left; by exists EINVAL|].
  right. by exists il.
Qed.

Lemma Wait_retry_entry_error wakes events w err :
  err ≠ EINTR →
  (∀ wk, unix.EpollWait wk (fd (e w)) events 100 (os w) = Some (events, -1, Some err)) →
  Wait_retry wakes events w = Returned ([], Some err) w.
Proof.
  intros Hne H. rewrite Wait_retry_unfold, H. by rewrite decide_False.
Qed.

Lemma Wait_retry_EINTR wakes events w :
  Wait_retry (unix.Fault EINTR :: wakes) events w = Wait_retry wakes events w.
Proof.
  destruct (EpollWait_entry w events 100) as [(err & Hne & H)|(il & Hl & Hev)].
  - by rewrite !(Wait_retry_entry_error _ _ _ err).
  - rewrite (Wait_retry_unfold (_ :: _)).
    by rewrite (EpollWait_live _ _ il).
Qed.

Lemma Wait_retry_unregistered w il fds wakes events :
  live w il → events ≠ [] → unix.reported il fds = [] →
  Wait_retry (unix.Ready fds :: wakes) events w = Wait_retry wakes events w.
Proof.
  intros Hl Hev Hnil. rewrite (Wait_retry_unfold (_ :: _)).
  rewrite (EpollWait_live _ _ il) by done. simpl. by rewrite Hnil, take_nil.
Qed.

Lemma Wait_retry_passed_over w il pre wakes events :
  live w il → events ≠ [] → Forall (passed_over il) pre →
  Wait_retry (pre ++ wakes) events w = Wait_retry wakes events w.
Proof.
  intros Hl Hev. induction 1 as [|wk pre Hwk _ IH]; [done|].
  destruct wk as [fds| |err]; simpl in Hwk.
  - apply bool_decide_unpack in Hwk. rewrite <- app_comm_cons.
    by rewrite (Wait_retry_unregistered _ il).
  - done.
  - apply bool_decide_unpack in Hwk as ->. rewrite <- app_comm_cons.
    by rewrite Wait_retry_EINTR.
Qed.

Lemma Wait_retry_Ready w il fds wakes events :
  live w il → events ≠ [] → unix.reported il fds ≠ [] →
  Wait_retry (unix.Ready fds :: wakes) events w =
    if writer (lock (e w)) then Blocked w
    else Returned (lookup_conn (connections (e w)) <$>
                     take (length events) (unix.reported il fds), None) w.
Proof.
  intros Hl Hev Hne. rewrite Wait_retry_unfold.
  rewrite (EpollWait_live _ _ il) by done. simpl.
  set (evs := take (length events) (unix.reported il fds)).
  assert (length evs ≤ length events)%nat by (unfold evs; rewrite length_take; lia).
  rewrite bool_decide_eq_false_2.
  - rewrite Wait_finish_eq by (rewrite length_app, length_drop; lia).
    by rewrite Nat2Z.id, take_app_length.
  - unfold evs. destruct events; [done|]. by destruct (unix.reported il fds).
Qed.

Lemma Wait_retry_Timeout w il wakes events :
  live w il → events ≠ [] →
  Wait_retry (unix.Timeout :: wakes) events w =
    if writer (lock (e w)) then Blocked w else Returned ([], None) w.
Proof.
  intros Hl Hev. rewrite Wait_retry_unfold.
  rewrite (EpollWait_live _ _ il) by done. simpl.
  by rewrite Wait_finish_eq by lia.
Qed.

(** ** Event records and descriptors *)

Lemma int32_small x : - 2 ^ 31 ≤ x < 2 ^ 31 → int32 x = x.
Proof.
  intros Hx. unfold int32, wrap_signed.
  rewrite Z.mod_small; lia.
Qed.

Lemma int_small x : - 2 ^ 63 ≤ x < 2 ^ 63 → int x = x.
Proof.
  intros Hx. unfold int, wrap_signed.
  rewrite Z.mod_small; lia.
Qed.

Lemma lookup_conn_registration m sfd :
  0 ≤ sfd < 2 ^ 31 →
  lookup_conn m (registration sfd) = default NilConn (m !! sfd).
Proof.
  intros Hx. unfold lookup_conn, registration. simpl.
  rewrite int32_small by lia. rewrite int_small by lia. done.
Qed.

Lemma reported_registered il m fds :
  registered_by_Add il →
  lookup_conn m <$> unix.reported il fds =
  (λ sfd, default NilConn (m !! sfd)) <$> filter (λ sfd, sfd ∈ dom il) fds.
Proof.
  intros Hreg. unfold unix.reported. induction fds as [|x fds IH]; [done|].
  simpl. rewrite filter_cons. destruct (il !! x) as [ev|] eqn:Hx.
  - rewrite decide_True by (apply elem_of_dom; eauto). simpl.
    destruct (Hreg _ _ Hx) as [-> ?]. rewrite lookup_conn_registration by done.
    f_equal. apply IH.
  - rewrite decide_False by (by apply not_elem_of_dom). done.
Qed.

(** * The claims *)

(** ** C1: when [Wait] returns *)

(** C1, as stated, fails: [Wait] passes 100 to [EpollWait] as its timeout
    in milliseconds, so when the timer runs out with nothing ready it
    returns an empty list and a nil error. *)
Lemma Wait_timeout_returns_nothing :
  Wait [unix.Timeout] world0 = Returned ([], None) world0 ∧
  ¬ (∀ wakes w conns err w',
       Wait wakes w = Returned (conns, err) w' → conns ≠ [] ∨ err ≠ None).
Proof.
  assert (Wait [unix.Timeout] world0 = Returned ([], None) world0) as H
    by (vm_compute; reflexivity).
  split; [exact H|]. intros Hclaim.
  destruct (Hclaim _ _ _ _ _ H) as [Hc|Hc]; by apply Hc.
Qed.

(** C1 (amended): [Wait] returns to the caller only when a registered
    descriptor has become ready (the result is then not empty), when the
    100 ms timer of [epoll_wait] has run out (the result is then the empty
    list with a nil error), or when an error other than EINTR occurred; it
    leaves the world as it was.  And the timer does make it return: on a
    multiplexer in place, whose lock no writer holds, a timeout yields the
    empty list and no error. *)
Theorem Wait_returns_only_when wakes w :
  (∀ conns err w', Wait wakes w = Returned (conns, err) w' →
     w' = w ∧
     ((∃ errno, err = Some errno ∧ errno ≠ EINTR ∧ conns = []) ∨
      (err = None ∧ conns = [] ∧ unix.Timeout ∈ wakes) ∨
      (err = None ∧ conns ≠ [] ∧
       ∃ fds il, unix.Ready fds ∈ wakes ∧ interest w = Some il ∧
                 unix.reported il fds ≠ []))) ∧
  (∀ il, live w il → writer (lock (e w)) = false →
     Wait (unix.Timeout :: wakes) w = Returned ([], None) w).
Proof.
  split.
  - intros conns err w' H. unfold Wait in H.
    destruct (Wait_retry_cases wakes (replicate 100 zeroEvent) w)
      as [H'|[(x & ? & H')|[[? H']|(fds & il & ? & ? & Hne & ? & H')]]];
      rewrite H' in H; simplify_eq.
    + split; [done|]. left. by exists x.
    + split; [done|]. right; left. done.
    + split; [done|]. right; right. split_and!; [done| |by exists fds, il].
      by destruct (unix.reported il fds).
  - intros il Hl Hw. unfold Wait.
    rewrite (Wait_retry_Timeout _ il) by done. by rewrite Hw.
Qed.

Lemma Wait_returns_only_when_witness :
  Wait [unix.Fault EINTR; unix.Ready [7; 5; 6]] world2 = Returned ([conn5; conn6], None) world2 ∧
  (∃ fds il, unix.Ready fds ∈ [unix.Fault EINTR; unix.Ready [7; 5; 6]] ∧
             interest world2 = Some il ∧ unix.reported il fds ≠ []) ∧
  Wait [unix.Timeout; unix.Ready [5]] world2 = Returned ([], None) world2.
Proof.
  assert (Wait [unix.Fault EINTR; unix.Ready [7; 5; 6]] world2
          = Returned ([conn5; conn6], None) world2) as H by (vm_compute; reflexivity).
  destruct (Wait_returns_only_when [unix.Fault EINTR; unix.Ready [7; 5; 6]] world2)
    as [Hret _].
  destruct (Wait_returns_only_when [unix.Ready [5]] world2) as [_ Htimer].
  split_and!.
  - exact H.
  - destruct (Hret _ _ _ H) as [_ [(x & ? & _)|[(_ & ? & _)|(_ & _ & Hex)]]];
      [discriminate|discriminate|exact Hex].
  - apply (Htimer (<[5 := registration 5]> (<[6 := registration 6]> ∅))).
    + split; vm_compute; reflexivity.
    + reflexivity.
Defined.

(** ** C2: EINTR is retried *)

(** C2: any number of EINTR failures of the wait system call is retried
    inside [Wait], which then behaves as if they had not happened; what
    [Wait] returns is never EINTR. *)
Theorem Wait_retries_EINTR (n : nat) wakes w :
  Wait (replicate n (unix.Fault EINTR) ++ wakes) w = Wait wakes w ∧
  (∀ conns err w', Wait wakes w = Returned (conns, err) w' → err ≠ Some EINTR).
Proof.
  split.
  - unfold Wait. induction n as [|n IH]; [done|].
    simpl replicate. rewrite <- app_comm_cons. by rewrite Wait_retry_EINTR.
  - intros conns err w' H. unfold Wait in H.
    wait_cases wakes w H'; rewrite H' in H; simplify_eq; congruence.
Qed.

Lemma Wait_retries_EINTR_witness :
  Wait (replicate 3 (unix.Fault EINTR) ++ [unix.Ready [6]]) world2
    = Returned ([conn6], None) world2 ∧
  (None : error) ≠ Some EINTR.
Proof.
  destruct (Wait_retries_EINTR 3 [unix.Ready [6]] world2) as [Heq Hne].
  assert (Wait [unix.Ready [6]] world2 = Returned ([conn6], None) world2) as H
    by (vm_compute; reflexivity).
  split; [by rewrite Heq|]. exact (Hne _ _ _ H).
Defined.

(** ** C3: a failing registration changes nothing *)

(** C3: when the [EpollCtl] call of [Add] or of [Remove] fails, the
    operation returns that error and the world (the descriptor table, and
    the kernel, the lock and the log as well) is exactly as before. *)
Theorem failed_syscall_changes_nothing fault conn sfd errno w :
  socketFD conn = Ok sfd →
  ((unix.EpollCtl fault (fd (e w)) syscall.EPOLL_CTL_ADD sfd
      (Some (registration sfd)) (os w)).2 = Some errno →
   Add fault conn w = Returned (Some errno) w) ∧
  ((unix.EpollCtl fault (fd (e w)) syscall.EPOLL_CTL_DEL sfd None (os w)).2
      = Some errno →
   Remove fault conn w = Returned (Some errno) w).
Proof.
  intros Hfd. split; intros Hctl.
  - rewrite (Add_unfold _ _ sfd) by done.
    destruct (unix.EpollCtl _ _ _ _ _ _) as [k err] eqn:H.
    simpl in Hctl. subst err.
    apply EpollCtl_failure_keeps_kernel in H as ->.
    by rewrite with_kernel_same.
  - rewrite (Remove_unfold _ _ sfd) by done.
    destruct (unix.EpollCtl _ _ _ _ _ _) as [k err] eqn:H.
    simpl in Hctl. subst err.
    apply EpollCtl_failure_keeps_kernel in H as ->.
    by rewrite with_kernel_same.
Qed.

Lemma failed_syscall_changes_nothing_witness :
  Add None conn5 world2 = Returned (Some EEXIST) world2 ∧
  Remove (Some ENOMEM) conn5 world2 = Returned (Some ENOMEM) world2.
Proof.
  split.
  - apply (failed_syscall_changes_nothing None conn5 5 EEXIST world2);
      vm_compute; reflexivity.
  - apply (failed_syscall_changes_nothing (Some ENOMEM) conn5 5 ENOMEM world2);
      vm_compute; reflexivity.
Defined.

(** ** C4: a handle without a descriptor *)

(** C4, as stated, fails: [socketFD] has no error result.  On a handle
    that is not laid out like a TCP connection the reflective walk panics,
    so [Add] returns no error at all. *)
Lemma Add_without_descriptor_panics :
  socketFD wrappedConn = Panic (ValueError "reflect.Value.FieldByName" KOther) ∧
  Add None wrappedConn world0
    = Panicked (ValueError "reflect.Value.FieldByName" KOther) world0 ∧
  ¬ (∀ conn p fault w, socketFD conn = Panic p →
       ∃ errno, Add fault conn w = Returned (Some errno) w).
Proof.
  split_and!; [done|done|]. intros Hclaim.
  destruct (Hclaim wrappedConn _ None world0 eq_refl) as [errno H].
  vm_compute in H. discriminate.
Qed.

(** C4 (amended): when the reflective walk of [socketFD] fails on a
    handle, [Add] and [Remove] panic with the panic of package reflect,
    before any system call, and the world is as before.  A TCP connection
    that is closed still resolves, to descriptor -1, and the failure
    surfaces as the EBADF of the system call, the world unchanged. *)
Theorem no_descriptor_panics_or_EBADF fault conn p w :
  socketFD conn = Panic p →
  Add fault conn w = Panicked p w ∧
  Remove fault conn w = Panicked p w ∧
  (∀ id, Add None (TCPConn id (-1)) w = Returned (Some EBADF) w ∧
         Remove None (TCPConn id (-1)) w = Returned (Some EBADF) w).
Proof.
  intros H. split_and!.
  - by apply Add_panics.
  - by apply Remove_panics.
  - intros id.
    assert (socketFD (TCPConn id (-1)) = Ok (-1)) as Hfd by done.
    assert (∀ op ev, unix.EpollCtl None (fd (e w)) op (-1) ev (os w)
                     = (os w, Some EBADF)) as Hctl.
    { intros op ev. unfold unix.EpollCtl, unix.is_open.
      by rewrite andb_false_r. }
    split.
    + rewrite (Add_unfold _ _ (-1)) by done. rewrite Hctl.
      by rewrite with_kernel_same.
    + rewrite (Remove_unfold _ _ (-1)) by done. rewrite Hctl.
      by rewrite with_kernel_same.
Qed.

Lemma no_descriptor_panics_or_EBADF_witness :
  Add None NilConn world2
    = Panicked (ValueError "reflect.Value.FieldByName" KInvalid) world2 ∧
  Remove None NilConn world2
    = Panicked (ValueError "reflect.Value.FieldByName" KInvalid) world2 ∧
  Add None closedConn world2 = Returned (Some EBADF) world2.
Proof.
  destruct (no_descriptor_panics_or_EBADF None NilConn
              (ValueError "reflect.Value.FieldByName" KInvalid) world2 eq_refl)
    as (HA & HR & Hclosed).
  split_and!; [exact HA|exact HR|]. exact (proj1 (Hclosed 4%nat)).
Defined.

(** ** C5: removing what is not registered *)

(** C5: for a handle whose descriptor is not registered with the epoll
    instance, [Remove] returns an error and leaves the world, the table
    included, as it was. *)
Theorem Remove_unregistered_fails fault conn sfd w :
  socketFD conn = Ok sfd →
  sfd ∉ registered w →
  ∃ errno, Remove fault conn w = Returned (Some errno) w.
Proof.
  intros Hfd Hnot. rewrite (Remove_unfold _ _ sfd) by done.
  unfold registered, interest in Hnot.
  destruct (epolls (os w) !! fd (e w)) as [il|] eqn:Hil.
  - apply not_elem_of_dom in Hnot.
    destruct (EpollCtl_DEL_unregistered fault _ _ None _ _ Hil Hnot) as [err ->].
    exists err. by rewrite with_kernel_same.
  - destruct (EpollCtl_no_instance fault _ syscall.EPOLL_CTL_DEL sfd None _ Hil)
      as [err ->].
    exists err. by rewrite with_kernel_same.
Qed.

(** Never added, and added then removed. *)
Lemma Remove_unregistered_fails_witness :
  (∃ errno, Remove None conn5 world0 = Returned (Some errno) world0) ∧
  (∃ errno, Remove None conn5 (after (Remove None conn5 world2))
            = Returned (Some errno) (after (Remove None conn5 world2))).
Proof.
  split.
  - apply (Remove_unregistered_fails None conn5 5 world0); [reflexivity|].
    apply (bool_decide_unpack _). vm_compute. exact I.
  - apply (Remove_unregistered_fails None conn5 5); [reflexivity|].
    apply (bool_decide_unpack _). vm_compute. exact I.
Defined.

(** ** C6: the table and the kernel agree *)

Lemma reachable_world0 : reachable world0.
Proof.
  apply (reach_MkEpoll (unix.NewFd 3) kernel0
           {| open_fds := {[3]} ∪ open_fds kernel0; epolls := <[3 := ∅]> ∅ |}
           {| fd := 3; connections := ∅; lock := sync.unlocked |}).
  reflexivity.
Qed.

Lemma reachable_world2 : reachable world2.
Proof. unfold world2. do 2 apply reach_Add. apply reachable_world0. Qed.



(** ** C7: what a successful [Wait] returns *)



(** ** C8: at most 100 handles a call *)

(** C8: a call to [Wait] returns at most 100 handles; when more than 100
    registered descriptors are ready at once, it returns exactly the first
    100 the kernel reports, in the kernel's order. *)
Theorem Wait_returns_at_most_100 wakes w :
  (∀ conns err w', Wait wakes w = Returned (conns, err) w' →
     (length conns ≤ 100)%nat) ∧
  (∀ il pre fds,
     live w il → writer (lock (e w)) = false →
     Forall (passed_over il) pre →
     (100 < length (unix.reported il fds))%nat →
     ∃ conns,
       Wait (pre ++ unix.Ready fds :: wakes) w = Returned (conns, None) w ∧
       length conns = 100%nat ∧
       conns = lookup_conn (connections (e w)) <$> take 100 (unix.reported il fds)).
Proof.
  split.
  - intros conns err w' H. unfold Wait in H.
    wait_cases wakes w H'; rewrite H' in H; simplify_eq; simpl; try lia.
    rewrite length_fmap, length_take. lia.
  - intros il pre fds Hl Hw Hpre Hlen.
    exists (lookup_conn (connections (e w)) <$> take 100 (unix.reported il fds)).
    split_and!; [|rewrite length_fmap, length_take; lia|done].
    unfold Wait. rewrite (Wait_retry_passed_over _ il) by done.
    rewrite (Wait_retry_Ready _ il);
      [|done|done|intros E; rewrite E in Hlen; simpl in Hlen; lia].
    by rewrite Hw, length_replicate.
Qed.

Lemma Wait_returns_at_most_100_witness :
  ∃ conns,
    Wait ([unix.Fault EINTR] ++ unix.Ready (seqZ 0 200) :: []) world_many
      = Returned (conns, None) world_many ∧
    length conns = 100%nat ∧
    conns = lookup_conn (connections (e world_many)) <$>
              take 100 (unix.reported (default ∅ (interest world_many)) (seqZ 0 200)).
Proof.
  apply (proj2 (Wait_returns_at_most_100 [] world_many)
           (default ∅ (interest world_many)) [unix.Fault EINTR] (seqZ 0 200)).
  - split; vm_compute; reflexivity.
  - vm_compute; reflexivity.
  - repeat constructor.
  - apply (bool_decide_unpack _). vm_compute. exact I.
Defined.

(** ** C10: [Remove] goes by the descriptor *)

(** C10: [Remove] depends on its argument only through the descriptor it
    resolves to.  Called with any handle that resolves to the descriptor of
    a handle added before, it does what it does for that handle, and when
    it succeeds the descriptor is no longer registered and the table entry
    that mapped it to the added handle is gone, all other entries kept. *)
Theorem Remove_goes_by_descriptor fault h1 h2 sfd w :
  socketFD h1 = Ok sfd → socketFD h2 = Ok sfd →
  Remove fault h2 w = Remove fault h1 w ∧
  (∀ w', connections (e w) !! sfd = Some h1 →
         Remove fault h2 w = Returned None w' →
         connections (e w') = delete sfd (connections (e w)) ∧
         registered w' = registered w ∖ {[sfd]}).
Proof.
  intros H1 H2. split.
  - by rewrite (Remove_unfold _ h2 sfd), (Remove_unfold _ h1 sfd).
  - intros w' Hin HR. rewrite (Remove_unfold _ _ sfd) in HR by done.
    destruct (unix.EpollCtl _ _ _ _ _ _) as [k [err|]] eqn:Hctl; [done|].
    destruct (lock_free _); [|done]. simplify_eq. split; [done|].
    apply EpollCtl_DEL_success in Hctl as (il & Hil & _ & ->).
    unfold registered, interest. simpl. rewrite lookup_insert_eq, Hil.
    by rewrite dom_delete_L.
Qed.

Lemma Remove_goes_by_descriptor_witness :
  conn5' ≠ conn5 ∧
  Remove None conn5' world2 = Remove None conn5 world2 ∧
  connections (e (after (Remove None conn5' world2)))
    = delete 5 (connections (e world2)) ∧
  registered (after (Remove None conn5' world2)) = registered world2 ∖ {[5]}.
Proof.
  destruct (Remove_goes_by_descriptor None conn5 conn5' 5 world2 eq_refl eq_refl)
    as [Heq Hdel].
  split; [discriminate|]. split; [exact Heq|].
  apply Hdel; [vm_compute; reflexivity|].
  vm_compute; reflexivity.
Defined.

(** ** C9: concurrent registration *)

(** What one step of a thread does. *)
Lemma add_step_inv t w t' w' :
  add_step t w = Some (t', w') →
  a_conn t' = a_conn t ∧
  ((a_pc t = AddStart ∧ e w' = e w ∧
    ((∃ p, socketFD (a_conn t) = Panic p ∧ a_pc t' = AddPanicked p) ∨
     (∃ sfd, socketFD (a_conn t) = Ok sfd ∧
             (a_pc t' = AddLock sfd ∨ ∃ err, a_pc t' = AddDone (Some err))))) ∨
   (∃ sfd, a_pc t = AddLock sfd ∧ a_pc t' = AddStore sfd ∧
           lock_free (lock (e w)) = true ∧
           connections (e w') = connections (e w) ∧
           lock (e w') = {| writer := true; readers := 0 |}) ∨
   (∃ sfd, a_pc t = AddStore sfd ∧ a_pc t' = AddLog sfd ∧
           connections (e w') = <[sfd := a_conn t]> (connections (e w)) ∧
           lock (e w') = lock (e w)) ∨
   (∃ sfd, a_pc t = AddLog sfd ∧ a_pc t' = AddUnlock ∧ e w' = e w) ∨
   (a_pc t = AddUnlock ∧
    ((writer (lock (e w)) = true ∧ a_pc t' = AddDone None ∧
      connections (e w') = connections (e w) ∧
      lock (e w') = {| writer := false; readers := readers (lock (e w)) |}) ∨
     (writer (lock (e w)) = false ∧ a_pc t' = AddPanicked FatalUnlock ∧ w' = w)))).
Proof.
  unfold add_step, via. destruct (a_pc t) as [|sfd|sfd|sfd| |err|p] eqn:Hpc; intros H.
  - unfold mbind, M_bind, bind, lift, e_fd, sys_EpollCtl in H.
    destruct (socketFD (a_conn t)) as [sfd|p] eqn:Hfd; simpl in H.
    + destruct (unix.EpollCtl _ _ _ _ _ _) as [k [err|]];
        simpl in H; simplify_eq; (split; [done|]); left;
        (split_and!; [done|done|]); right; exists sfd; eauto.
    + simplify_eq. split; [done|]. left. split_and!; [done|done|]. left. eauto.
  - unfold sync.Lock in H. fold (lock_free (lock (e w))) in H.
    destruct (lock_free _) eqn:Hl; [|done]. simplify_eq.
    split; [done|]. right; left. exists sfd. by split_and!.
  - unfold map_store in H. simplify_eq.
    split; [done|]. right; right; left. exists sfd. by split_and!.
  - unfold mbind, M_bind, bind, map_len in H.
    destruct (bool_decide _); simpl in H; simplify_eq;
      (split; [done|]); right; right; right; left; exists sfd; by split_and!.
  - unfold sync.Unlock in H.
    destruct (writer (lock (e w))) eqn:Hw; simplify_eq;
      (split; [done|]); right; right; right; right; (split; [done|]).
    + left. by split_and!.
    + right. by split_and!.
  - done.
  - done.
Qed.

(** A thread run on its own is the sequential [Add]. *)
Lemma Add_as_steps fault conn w :
  thread_outcome (run_thread 5 (spawn conn fault) w) = Add fault conn w.
Proof.
  destruct (socketFD conn) as [sfd|p] eqn:Hfd.
  - rewrite (Add_unfold _ _ sfd) by done.
    unfold run_thread at 1. unfold add_step at 1, via. cbn [spawn a_pc a_conn a_fault].
    unfold mbind at 1, M_bind at 1, bind at 1, lift at 1. rewrite Hfd.
    unfold mbind, M_bind, bind, e_fd, sys_EpollCtl. fold (registration sfd).
    destruct (unix.EpollCtl _ _ _ _ _ _) as [k [err|]]; simpl; [done|].
    unfold add_step at 1, via. cbn [at_pc a_pc]. unfold sync.Lock. cbn [e lock].
    fold (lock_free (lock (e w))). destruct (lock_free _) eqn:Hl; [|done].
    unfold add_step, via, map_store, mbind, M_bind, bind, map_len, sync.Unlock.
    simpl. unfold committed, thread_outcome.
    by destruct (bool_decide (_ `rem` _ = _)).
  - rewrite (Add_panics _ _ p) by done.
    unfold run_thread at 1. unfold add_step at 1, via. cbn [spawn a_pc a_conn a_fault].
    unfold mbind at 1, M_bind at 1, bind at 1, lift at 1. by rewrite Hfd.
Qed.

Lemma lookup_insert_thread (ts : list add_thread) i t' j tj :
  (i < length ts)%nat →
  <[i := t']> ts !! j = Some tj →
  (j = i ∧ tj = t') ∨ (j ≠ i ∧ ts !! j = Some tj).
Proof.
  intros Hi Hj. destruct (decide (j = i)) as [->|Hne].
  - rewrite list_lookup_insert_eq in Hj by done. left. by simplify_eq.
  - rewrite list_lookup_insert_ne in Hj by done. by right.
Qed.

(** The invariant holds at the start and is kept by every step. *)
Lemma pool_inv_init conns faults fds w0 :
  length faults = length conns →
  lock (e w0) = sync.unlocked →
  pool_inv conns fds w0 (zip_with spawn conns faults, w0).
Proof.
  intros Hlen Hlock.
  assert (∀ i t, zip_with spawn conns faults !! i = Some t → a_pc t = AddStart) as Hpc.
  { intros i t Hi. apply lookup_zip_with_Some in Hi as (c & f & -> & _). done. }
  split; simpl.
  - clear Hpc. revert faults Hlen.
    induction conns as [|c conns IH]; intros [|f faults] ?;
      simplify_eq/=; [done|]. f_equal. by apply IH.
  - intros i t sfd Hi. by rewrite (Hpc _ _ Hi).
  - intros i t sfd Hi _. by rewrite (Hpc _ _ Hi).
  - done.
  - by rewrite Hlock.
  - intros i j ti tj Hi _. by rewrite (Hpc _ _ Hi).
  - rewrite Hlock. split; [done|]. intros (i & t & Hi & Hcs).
    by rewrite (Hpc _ _ Hi) in Hcs.
Qed.

(** The threads add the connections [conns], which resolve to the
    descriptors [fds], all different; the run started in world [w0]. *)
Section pool.
Context (conns : list Conn) (fds : list Z) (w0 : world).
Hypothesis Hfds : Forall2 (λ conn sfd, socketFD conn = Ok sfd) conns fds.
Hypothesis Hnd : NoDup fds.

Lemma thread_descriptor (ts : list add_thread) i t :
  a_conn <$> ts = conns → ts !! i = Some t →
  ∃ sfd, fds !! i = Some sfd ∧ socketFD (a_conn t) = Ok sfd.
Proof.
  intros Hc Hi. pose proof Hfds as H. rewrite <- Hc in H.
  eapply Forall2_lookup_l in H as (sfd & ? & ?);
    [|by rewrite list_lookup_fmap, Hi]. eauto.
Qed.

Lemma pool_inv_step c c' :
  pool_inv conns fds w0 c → pool_step c c' → pool_inv conns fds w0 c'.
Proof.
  intros HI [i Hstep]. destruct c as [ts w].
  unfold sched_step in Hstep. simpl in Hstep.
  destruct (ts !! i) as [t|] eqn:Hi; [|done]. simpl in Hstep.
  destruct (add_step t w) as [[t' w']|] eqn:Hs; [|done]. simpl in Hstep.
  simplify_eq. apply add_step_inv in Hs as [Hconn Hcase].
  assert (i < length ts)%nat as Hlt by (by eapply lookup_lt_Some).
  pose proof (λ j tj, lookup_insert_thread ts i t' j tj Hlt) as Hlk.
  destruct HI as [Hc Hloc Hst Hoth Hrd Hex Hwr]. simpl in *.
  destruct (thread_descriptor _ _ _ Hc Hi) as (sfdi & Hfdi & Hsock).
  assert (a_conn <$> <[i := t']> ts = conns) as Hc'.
  { rewrite list_fmap_insert, Hconn, <- Hc. apply list_insert_id.
    by rewrite list_lookup_fmap, Hi. }
  assert (∀ j tj sfd, ts !! j = Some tj → j ≠ i → fds !! j = Some sfd → sfd ≠ sfdi)
    as Hdiff.
  { intros j tj sfd _ Hne Hj ->. apply Hne. by eapply NoDup_lookup. }
  destruct Hcase as [(Hpc & He & Hcase)|[(sfd & Hpc & Hpc' & Hfree & Hm & Hl)|
    [(sfd & Hpc & Hpc' & Hm & Hl)|[(sfd & Hpc & Hpc' & He)|(Hpc & Hcase)]]]].
  - (* the system call *)
    assert (in_cs (a_pc t') = false ∧ stored (a_pc t') = false) as [Hcs' Hst'].
    { destruct Hcase as [(p & _ & ->)|(sfd & _ & [->|[err ->]])]; done. }
    split; simpl; rewrite ?He; try done.
    + intros j tj sfd [[-> ->]|[Hne Hj]]%Hlk Hl; [|by eapply Hloc].
      destruct Hcase as [(p & _ & Hp)|(sfd' & Hfd' & [Hp|[err Hp]])];
        rewrite Hp in Hl; simplify_eq/=. congruence.
    + intros j tj sfd [[-> ->]|[Hne Hj]]%Hlk Hfd Hs; [congruence|by eapply Hst].
    + intros k Hk. apply Hoth. intros j tj Hj Hfd.
      destruct (decide (j = i)) as [->|Hne].
      * simplify_eq. by rewrite Hpc.
      * apply (Hk j); [|done]. by rewrite list_lookup_insert_ne.
    + intros j1 j2 t1 t2 [[-> ->]|[Hne1 Hj1]]%Hlk [[-> ->]|[Hne2 Hj2]]%Hlk;
        try congruence. by eapply Hex.
    + rewrite Hwr. split; intros (j & tj & Hj & Hcs).
      * exists j, tj. split; [|done]. rewrite list_lookup_insert_ne; [done|].
        intros ->. simplify_eq. by rewrite Hpc in Hcs.
      * apply Hlk in Hj as [[-> ->]|[Hne Hj]]; [congruence|eauto].
  - (* Lock *)
    assert (writer (lock (e w)) = false) as Hw.
    { unfold lock_free in Hfree. by destruct (writer _). }
    assert (∀ j tj, ts !! j = Some tj → in_cs (a_pc tj) = false) as Hnone.
    { intros j tj Hj. destruct (in_cs (a_pc tj)) eqn:Hcs; [|done].
      assert (writer (lock (e w)) = true) by (apply Hwr; eauto). congruence. }
    split; simpl.
    + done.
    + intros j tj sfd' [[-> ->]|[Hne Hj]]%Hlk Hl'; [|by eapply Hloc].
      rewrite Hpc' in Hl'. simplify_eq/=. apply (Hloc i t); [done|by rewrite Hpc].
    + rewrite Hm. intros j tj sfd' [[-> ->]|[Hne Hj]]%Hlk Hfd Hs;
        [by rewrite Hpc' in Hs|by eapply Hst].
    + rewrite Hm. intros k Hk. apply Hoth. intros j tj Hj Hfd.
      destruct (decide (j = i)) as [->|Hne].
      * simplify_eq. by rewrite Hpc.
      * apply (Hk j); [|done]. by rewrite list_lookup_insert_ne.
    + by rewrite Hl.
    + intros j1 j2 t1 t2 [[-> ->]|[Hne1 Hj1]]%Hlk [[-> ->]|[Hne2 Hj2]]%Hlk;
        try done; intros H1 H2.
      * by rewrite (Hnone _ _ Hj2) in H2.
      * by rewrite (Hnone _ _ Hj1) in H1.
      * by rewrite (Hnone _ _ Hj1) in H1.
    + rewrite Hl. simpl. split; [|done]. intros _. exists i, t'.
      rewrite list_lookup_insert_eq by done. by rewrite Hpc'.
  - (* the store *)
    assert (fds !! i = Some sfd) as Hfd' by (apply (Hloc i t); [done|by rewrite Hpc]).
    assert (sfd = sfdi) as -> by congruence.
    split; simpl.
    + done.
    + intros j tj sfd' [[-> ->]|[Hne Hj]]%Hlk Hl'; [|by eapply Hloc].
      rewrite Hpc' in Hl'. by simplify_eq/=.
    + rewrite Hm. intros j tj sfd' [[-> ->]|[Hne Hj]]%Hlk Hfd Hs.
      * simplify_eq. by rewrite lookup_insert_eq, Hconn.
      * rewrite lookup_insert_ne; [by eapply Hst|].
        intros <-. by eapply Hdiff.
    + rewrite Hm. intros k Hk.
      assert (k ≠ sfdi) as Hne.
      { intros ->. specialize (Hk i t'). rewrite list_lookup_insert_eq in Hk by done.
        specialize (Hk eq_refl Hfdi). by rewrite Hpc' in Hk. }
      rewrite lookup_insert_ne by done. apply Hoth. intros j tj Hj Hfd.
      destruct (decide (j = i)) as [->|Hji]; [congruence|].
      apply (Hk j); [|done]. by rewrite list_lookup_insert_ne.
    + by rewrite Hl.
    + intros j1 j2 t1 t2 [[-> ->]|[Hne1 Hj1]]%Hlk [[-> ->]|[Hne2 Hj2]]%Hlk;
        try done; intros H1 H2.
      * symmetry. apply (Hex j2 i t2 t); try done. by rewrite Hpc.
      * apply (Hex j1 i t1 t); try done. by rewrite Hpc.
      * by eapply Hex.
    + rewrite Hl, Hwr. split; intros (j & tj & Hj & Hcs).
      * destruct (decide (j = i)) as [->|Hne].
        -- exists i, t'. rewrite list_lookup_insert_eq by done. by rewrite Hpc'.
        -- exists j, tj. by rewrite list_lookup_insert_ne.
      * apply Hlk in Hj as [[-> ->]|[Hne Hj]]; [|eauto].
        exists i, t. by rewrite Hpc.
  - (* the count and the log *)
    split; simpl; rewrite ?He; try done.
    + intros j tj sfd' [[-> ->]|[Hne Hj]]%Hlk Hl'; [|by eapply Hloc].
      by rewrite Hpc' in Hl'.
    + intros j tj sfd' [[-> ->]|[Hne Hj]]%Hlk Hfd Hs; [|by eapply Hst].
      rewrite Hconn. apply (Hst i t); [done|done|by rewrite Hpc].
    + intros k Hk. apply Hoth. intros j tj Hj Hfd.
      destruct (decide (j = i)) as [->|Hne].
      * assert (tj = t) as -> by congruence. specialize (Hk i t').
        rewrite list_lookup_insert_eq in Hk by done.
        specialize (Hk eq_refl Hfd). by rewrite Hpc' in Hk.
      * apply (Hk j); [|done]. by rewrite list_lookup_insert_ne.
    + intros j1 j2 t1 t2 [[-> ->]|[Hne1 Hj1]]%Hlk [[-> ->]|[Hne2 Hj2]]%Hlk;
        try done; intros H1 H2.
      * symmetry. apply (Hex j2 i t2 t); try done. by rewrite Hpc.
      * apply (Hex j1 i t1 t); try done. by rewrite Hpc.
      * by eapply Hex.
    + rewrite Hwr. split; intros (j & tj & Hj & Hcs).
      * destruct (decide (j = i)) as [->|Hne].
        -- exists i, t'. rewrite list_lookup_insert_eq by done. by rewrite Hpc'.
        -- exists j, tj. by rewrite list_lookup_insert_ne.
      * apply Hlk in Hj as [[-> ->]|[Hne Hj]]; [|eauto].
        exists i, t. by rewrite Hpc.
  - (* Unlock *)
    assert (writer (lock (e w)) = true) as Hw
      by (apply Hwr; exists i, t; by rewrite Hpc).
    destruct Hcase as [(_ & Hpc' & Hm & Hl)|(Hw' & _)]; [|congruence].
    assert (∀ j tj, ts !! j = Some tj → j ≠ i → in_cs (a_pc tj) = false) as Hnone.
    { intros j tj Hj Hne. destruct (in_cs (a_pc tj)) eqn:Hcs; [|done].
      destruct Hne. apply (Hex j i tj t); try done. by rewrite Hpc. }
    split; simpl.
    + done.
    + intros j tj sfd' [[-> ->]|[Hne Hj]]%Hlk Hl'; [|by eapply Hloc].
      by rewrite Hpc' in Hl'.
    + rewrite Hm. intros j tj sfd' [[-> ->]|[Hne Hj]]%Hlk Hfd Hs; [|by eapply Hst].
      rewrite Hconn. apply (Hst i t); [done|done|by rewrite Hpc].
    + rewrite Hm. intros k Hk. apply Hoth. intros j tj Hj Hfd.
      destruct (decide (j = i)) as [->|Hne].
      * assert (tj = t) as -> by congruence. specialize (Hk i t').
        rewrite list_lookup_insert_eq in Hk by done.
        specialize (Hk eq_refl Hfd). by rewrite Hpc' in Hk.
      * apply (Hk j); [|done]. by rewrite list_lookup_insert_ne.
    + by rewrite Hl.
    + intros j1 j2 t1 t2 [[-> ->]|[Hne1 Hj1]]%Hlk [[-> ->]|[Hne2 Hj2]]%Hlk;
        try done; intros H1 H2.
      * by rewrite Hpc' in H1.
      * by rewrite Hpc' in H2.
      * by eapply Hex.
    + rewrite Hl. simpl. split; [done|]. intros (j & tj & Hj & Hcs).
      apply Hlk in Hj as [[-> ->]|[Hne Hj]].
      * by rewrite Hpc' in Hcs.
      * by rewrite (Hnone _ _ Hj Hne) in Hcs.
Qed.

Lemma pool_inv_rtc c c' :
  pool_inv conns fds w0 c → rtc pool_step c c' → pool_inv conns fds w0 c'.
Proof.
  intros HI Hrtc. induction Hrtc as [|c1 c2 c3 Hstep _ IH]; [done|].
  apply IH. by eapply pool_inv_step.
Qed.

End pool.

Lemma run_schedule_rtc sched c c' :
  run_schedule sched c = Some c' → rtc pool_step c c'.
Proof.
  revert c. induction sched as [|i sched IH]; intros c H; simpl in H.
  - by simplify_eq.
  - destruct (sched_step i c) as [c1|] eqn:Hs; [|done]. simpl in H.
    eapply rtc_l; [by exists i|]. by apply IH.
Qed.

Lemma add_step_enabled t w :
  finished (a_pc t) = false →
  (in_cs (a_pc t) = true → writer (lock (e w)) = true) →
  (in_cs (a_pc t) = false → lock_free (lock (e w)) = true) →
  is_Some (add_step t w).
Proof.
  intros Hfin Hin Hout. unfold add_step, via.
  destruct (a_pc t) as [|sfd|sfd|sfd| |err|p] eqn:Hpc; try done.
  - unfold mbind, M_bind, bind, lift, e_fd, sys_EpollCtl.
    destruct (socketFD (a_conn t)); simpl; [|by eexists].
    destruct (unix.EpollCtl _ _ _ _ _ _) as [k err]. by eexists.
  - unfold sync.Lock. fold (lock_free (lock (e w))). rewrite Hout by done.
    by eexists.
  - unfold mbind, M_bind, bind, map_len. destruct (bool_decide _); by eexists.
  - unfold sync.Unlock. rewrite Hin by done. by eexists.
Qed.

(** C9: let any number of execution contexts each call [Add] once, on
    connections with distinct descriptors none of which is in the table,
    and let their steps interleave in any way.  At every moment at most one
    of them is inside the critical section, and as long as a call has not
    finished some context can take a step.  Once all the calls have
    returned nil, the table is the one from before together with exactly
    one entry per call, the descriptor of the call mapped to its
    connection: none missing, none twice; its size has grown by the number
    of calls, and the lock is free. *)
Theorem concurrent_Adds_fill_table conns faults fds w0 ts w :
  length faults = length conns →
  Forall2 (λ conn sfd, socketFD conn = Ok sfd) conns fds →
  NoDup fds →
  lock (e w0) = sync.unlocked →
  (∀ sfd, sfd ∈ fds → connections (e w0) !! sfd = None) →
  rtc pool_step (zip_with spawn conns faults, w0) (ts, w) →
  (∀ i j ti tj, ts !! i = Some ti → ts !! j = Some tj →
     in_cs (a_pc ti) = true → in_cs (a_pc tj) = true → i = j) ∧
  (∀ i t, ts !! i = Some t → finished (a_pc t) = false →
     ∃ c', pool_step (ts, w) c') ∧
  (Forall (λ t, a_pc t = AddDone None) ts →
     connections (e w) = list_to_map (zip fds conns) ∪ connections (e w0) ∧
     size (connections (e w)) = (size (connections (e w0)) + length conns)%nat ∧
     lock (e w) = sync.unlocked).
Proof.
  intros Hlen Hfds Hnd Hlock Hfresh Hrtc.
  pose proof (pool_inv_rtc conns fds w0 Hfds Hnd _ _
                (pool_inv_init conns faults fds w0 Hlen Hlock) Hrtc)
    as [Hc Hloc Hst Hoth Hrd Hex Hwr].
  simpl in *. split; [exact Hex|]. split.
  { intros i t Ht Hfin.
    assert (∀ j tj, ts !! j = Some tj → is_Some (add_step tj w) →
                    ∃ c', pool_step (ts, w) c') as Hgo.
    { intros j tj Hj [[t' w'] Hs]. exists (<[j := t']> ts, w'), j.
      unfold sched_step. simpl. rewrite Hj. simpl. by rewrite Hs. }
    destruct (writer (lock (e w))) eqn:Hw.
    - destruct (proj1 Hwr eq_refl) as (j & tj & Hj & Hcs).
      apply (Hgo j tj Hj). apply add_step_enabled; [|done|congruence].
      by destruct (a_pc tj).
    - apply (Hgo i t Ht). apply add_step_enabled; [done| |].
      + intros Hcs. rewrite Hw. apply Hwr. eauto.
      + intros _. unfold lock_free. rewrite Hw, Hrd. done. }
  intros Hdone.
  pose proof (Forall2_length _ _ _ Hfds) as Hlenfds.
  assert (NoDup (zip fds conns).*1) as Hnd' by (rewrite fst_zip; [done|lia]).
  assert (connections (e w) = list_to_map (zip fds conns) ∪ connections (e w0)) as Hm.
  { apply map_eq. intros k.
    destruct (decide (k ∈ fds)) as [Hin|Hnin].
    - apply list_elem_of_lookup in Hin as [i Hi].
      destruct (lookup_lt_is_Some_2 ts i) as [t Ht].
      { rewrite <- (length_fmap a_conn), Hc, Hlenfds. by eapply lookup_lt_Some. }
      rewrite (Hst i t k Ht Hi).
      2:{ rewrite Forall_lookup in Hdone. by rewrite (Hdone i t Ht). }
      symmetry. apply lookup_union_Some_raw. left.
      apply elem_of_list_to_map; [done|].
      apply list_elem_of_lookup. exists i. apply lookup_zip_with_Some.
      exists k, (a_conn t). split_and!; [done|done|].
      by rewrite <- Hc, list_lookup_fmap, Ht.
    - rewrite Hoth.
      2:{ intros i t _ Hi. destruct Hnin. apply list_elem_of_lookup. eauto. }
      symmetry. rewrite lookup_union_r; [done|].
      apply not_elem_of_list_to_map. by rewrite fst_zip by lia. }
  split_and!.
  - exact Hm.
  - rewrite Hm, map_size_disj_union.
    + rewrite map_size_list_to_map by done. rewrite length_zip. lia.
    + apply map_disjoint_spec. intros k x y Hx Hy.
      apply elem_of_list_to_map in Hx; [|done].
      apply elem_of_zip_l in Hx. rewrite (Hfresh k Hx) in Hy. done.
  - destruct (lock (e w)) as [wr rd] eqn:Hl. simpl in *. subst rd.
    destruct wr; [|done].
    destruct (proj1 Hwr eq_refl) as (i & t & Ht & Hcs).
    rewrite Forall_lookup in Hdone. by rewrite (Hdone i t Ht) in Hcs.
Qed.

Lemma concurrent_Adds_fill_table_witness :
  connections (e after_three_adds.2)
    = list_to_map [(5, conn5); (6, conn6); (7, conn7)] ∪ ∅ ∧
  size (connections (e after_three_adds.2)) = (0 + 3)%nat ∧
  lock (e after_three_adds.2) = sync.unlocked.
Proof.
  apply (proj2 (proj2 (concurrent_Adds_fill_table [conn5; conn6; conn7] [None; None; None]
                  [5; 6; 7] world0 after_three_adds.1 after_three_adds.2
                  eq_refl
                  ltac:(repeat constructor)
                  ltac:(apply (bool_decide_unpack _); vm_compute; exact I)
                  eq_refl
                  ltac:(done)
                  ltac:(apply (run_schedule_rtc interleaved); vm_compute; reflexivity)))).
  vm_compute. repeat constructor.
Defined.

(** * Further properties of the code *)

(** ** Successful calls in closed form *)

Lemma EpollCtl_ADD_success_checks fault epfd sfd ev k k' :
  unix.EpollCtl fault epfd syscall.EPOLL_CTL_ADD sfd ev k = (k', None) →
  fault = None ∧ unix.is_open k epfd = true ∧ sfd ≠ epfd.
Proof.
  unfold unix.EpollCtl. intros H.
  destruct fault; [done|].
  destruct (unix.is_open k epfd) eqn:Ho1; [|done].
  destruct (unix.is_open k sfd) eqn:Ho2; [|done]. simpl in H.
  destruct (epolls k !! epfd) as [il|]; [|done].
  by case_bool_decide.
Qed.

Lemma EpollCtl_ADD_registered epfd sfd ev k il x :
  unix.is_open k epfd = true → unix.is_open k sfd = true → sfd ≠ epfd →
  epolls k !! epfd = Some il → il !! sfd = Some x →
  unix.EpollCtl None epfd syscall.EPOLL_CTL_ADD sfd (Some ev) k = (k, Some EEXIST).
Proof.
  intros Ho1 Ho2 Hne Hil Hx. unfold unix.EpollCtl. rewrite Ho1, Ho2, Hil. simpl.
  rewrite bool_decide_eq_false_2 by done. by rewrite Hx.
Qed.

Lemma EpollCtl_DEL_registered epfd sfd ev k il x :
  unix.is_open k epfd = true → unix.is_open k sfd = true → sfd ≠ epfd →
  epolls k !! epfd = Some il → il !! sfd = Some x →
  unix.EpollCtl None epfd syscall.EPOLL_CTL_DEL sfd ev k
    = (unix.set_interest k epfd (delete sfd il), None).
Proof.
  intros Ho1 Ho2 Hne Hil Hx. unfold unix.EpollCtl. rewrite Ho1, Ho2, Hil. simpl.
  rewrite bool_decide_eq_false_2 by done. by rewrite Hx.
Qed.

Lemma Inv_live w il : Inv w → interest w = Some il → live w il ∧ registered_by_Add il.
Proof.
  intros [(il' & [Ho Hil] & Hreg) _ _] H.
  assert (il' = il) as -> by congruence. by split.
Qed.

Lemma Inv_lookup w il sfd :
  Inv w → interest w = Some il →
  (connections (e w) !! sfd = None ↔ il !! sfd = None).
Proof.
  intros HI Hil. pose proof (inv_keys w HI) as Hk.
  unfold tracked, registered in Hk. rewrite Hil in Hk.
  rewrite <- !not_elem_of_dom. by rewrite Hk.
Qed.

(** A successful [Add] between calls: the descriptor was open, not the
    epoll instance and not registered, and the world is the committed one. *)
Lemma Add_success fault conn sfd w w' :
  Inv w → socketFD conn = Ok sfd →
  Add fault conn w = Returned None w' →
  ∃ il, live w il ∧ il !! sfd = None ∧ connections (e w) !! sfd = None ∧
        unix.is_open (os w) sfd = true ∧ sfd ≠ fd (e w) ∧
        w' = committed (unix.set_interest (os w) (fd (e w))
                          (<[sfd := registration sfd]> il)) w
                       (<[sfd := conn]> (connections (e w))) ∧
        fault = None.
Proof.
  intros HI Hfd H. rewrite (Add_unfold _ _ sfd) in H by done.
  destruct (unix.EpollCtl _ _ _ _ _ _) as [k [err|]] eqn:Hctl; [done|].
  rewrite Inv_lock_free in H by done. simplify_eq.
  pose proof (EpollCtl_ADD_success_checks _ _ _ _ _ _ Hctl) as (Hf & _ & Hne).
  apply EpollCtl_ADD_success in Hctl as (il & Hil & Hnone & Hopen & ->).
  exists il. destruct (Inv_live w il HI Hil) as [Hl _].
  split_and!; try done. by apply (Inv_lookup w il).
Qed.

Lemma Remove_success fault conn sfd w w' :
  Inv w → socketFD conn = Ok sfd →
  Remove fault conn w = Returned None w' →
  ∃ il, live w il ∧ is_Some (il !! sfd) ∧ is_Some (connections (e w) !! sfd) ∧
        w' = committed (unix.set_interest (os w) (fd (e w)) (delete sfd il)) w
                       (delete sfd (connections (e w))).
Proof.
  intros HI Hfd H. rewrite (Remove_unfold _ _ sfd) in H by done.
  destruct (unix.EpollCtl _ _ _ _ _ _) as [k [err|]] eqn:Hctl; [done|].
  rewrite Inv_lock_free in H by done. simplify_eq.
  apply EpollCtl_DEL_success in Hctl as (il & Hil & Hsome & ->).
  exists il. destruct (Inv_live w il HI Hil) as [Hl _].
  split_and!; try done.
  apply not_eq_None_Some. rewrite (Inv_lookup w il) by done.
  by apply not_eq_None_Some.
Qed.

Lemma interest_committed k w il m :
  interest (committed (unix.set_interest k (fd (e w)) il) w m) = Some il.
Proof. unfold interest. simpl. by rewrite lookup_insert_eq. Qed.

Lemma registered_committed k w il m :
  registered (committed (unix.set_interest k (fd (e w)) il) w m) = dom il.
Proof. unfold registered. by rewrite interest_committed. Qed.

(** A call that does not return nil leaves the world as it was. *)
Lemma Add_not_nil fault conn w :
  Inv w → (∀ w', Add fault conn w ≠ Returned None w') →
  after (Add fault conn w) = w.
Proof.
  intros HI Hno. destruct (socketFD conn) as [sfd|p] eqn:Hfd.
  - pose proof (Hno) as Hno'. rewrite (Add_unfold _ _ sfd) in Hno' |- * by done.
    destruct (unix.EpollCtl _ _ _ _ _ _) as [k [err|]] eqn:Hctl.
    + apply EpollCtl_failure_keeps_kernel in Hctl as ->. simpl.
      apply with_kernel_same.
    + rewrite Inv_lock_free in Hno' by done. exfalso. by eapply Hno'.
  - by rewrite (Add_panics _ _ p).
Qed.

Lemma Remove_not_nil fault conn w :
  Inv w → (∀ w', Remove fault conn w ≠ Returned None w') →
  after (Remove fault conn w) = w.
Proof.
  intros HI Hno. destruct (socketFD conn) as [sfd|p] eqn:Hfd.
  - pose proof (Hno) as Hno'. rewrite (Remove_unfold _ _ sfd) in Hno' |- * by done.
    destruct (unix.EpollCtl _ _ _ _ _ _) as [k [err|]] eqn:Hctl.
    + apply EpollCtl_failure_keeps_kernel in Hctl as ->. simpl.
      apply with_kernel_same.
    + rewrite Inv_lock_free in Hno' by done. exfalso. by eapply Hno'.
  - by rewrite (Remove_panics _ _ p).
Qed.

(** ** What more holds between calls *)

Lemma MkEpoll_success choice k k' ep :
  MkEpoll choice k = (k', (Some ep, None)) →
  choice = unix.NewFd (fd ep) ∧ (0 ≤ fd ep < 2 ^ 31) ∧ (fd ep ∉ open_fds k) ∧
  k' = {| open_fds := {[fd ep]} ∪ open_fds k; epolls := <[fd ep := ∅]> (epolls k) |} ∧
  ep = {| fd := fd ep; connections := ∅; lock := sync.unlocked |}.
Proof.
  unfold MkEpoll, unix.EpollCreate1. intros H.
  destruct choice as [x|err]; [|done]. simpl in H.
  destruct (_ && _) eqn:Hx; [|done]. simplify_eq. simpl.
  apply andb_prop in Hx as [Hr Hfresh].
  apply andb_prop in Hr as [?%Z.leb_le ?%Z.ltb_lt].
  apply negb_true_iff, bool_decide_eq_false in Hfresh. by split_and!.
Qed.



Lemma is_open_set_interest k epfd il x :
  unix.is_open (unix.set_interest k epfd il) x = unix.is_open k x.
Proof. done. Qed.

Lemma Inv_more_MkEpoll choice k k' ep :
  MkEpoll choice k = (k', (Some ep, None)) → Inv_more (world_of k' ep).
Proof.
  intros H. pose proof (Inv_MkEpoll _ _ _ _ H) as HI.
  apply MkEpoll_success in H as (_ & _ & _ & -> & ->). split.
  - intros x c. simpl. by rewrite lookup_empty.
  - by apply Forall_nil.
  - intros x. unfold registered, interest. simpl.
    rewrite lookup_insert_eq, dom_empty_L. set_solver.
Qed.

Lemma log_ok_committed k w m : log_ok w → log_ok (committed k w m).
Proof.
  unfold log_ok. simpl. intros H. case_bool_decide; [|done].
  apply Forall_app. split; [done|]. apply Forall_singleton. lia.
Qed.

Lemma Add_nil_descriptor fault conn w w' :
  Add fault conn w = Returned None w' → ∃ sfd, socketFD conn = Ok sfd.
Proof.
  destruct (socketFD conn) as [sfd|p] eqn:Hfd; [by exists sfd|].
  by rewrite (Add_panics _ _ p).
Qed.

Lemma Remove_nil_descriptor fault conn w w' :
  Remove fault conn w = Returned None w' → ∃ sfd, socketFD conn = Ok sfd.
Proof.
  destruct (socketFD conn) as [sfd|p] eqn:Hfd; [by exists sfd|].
  by rewrite (Remove_panics _ _ p).
Qed.

Lemma Inv_more_Add fault conn w :
  Inv w → Inv_more w → Inv_more (after (Add fault conn w)).
Proof.
  intros HI HM.
  destruct (Add fault conn w) as [[err|] w'|p w'|w'] eqn:H;
    try (rewrite <- H, Add_not_nil; [done..|intros ?; by rewrite H]).
  simpl. destruct (Add_nil_descriptor _ _ _ _ H) as [sfd Hfd].
  destruct (Add_success _ _ _ _ _ HI Hfd H)
    as (il & Hl & Hil & Hm & Hopen & Hne & -> & _).
  destruct HM as [He Hlog Ho]. split.
  - intros x c. simpl. intros [[<- <-]|[_ Hx]]%lookup_insert_Some; [done|].
    by apply He.
  - by apply log_ok_committed.
  - intros x. rewrite registered_committed. simpl. rewrite is_open_set_interest.
    intros [->%elem_of_singleton|Hx]%dom_insert%elem_of_union; [done|].
    apply Ho. by rewrite (registered_live w il).
Qed.

Lemma Inv_more_Remove fault conn w :
  Inv w → Inv_more w → Inv_more (after (Remove fault conn w)).
Proof.
  intros HI HM.
  destruct (Remove fault conn w) as [[err|] w'|p w'|w'] eqn:H;
    try (rewrite <- H, Remove_not_nil; [done..|intros ?; by rewrite H]).
  simpl. destruct (Remove_nil_descriptor _ _ _ _ H) as [sfd Hfd].
  destruct (Remove_success _ _ _ _ _ HI Hfd H) as (il & Hl & Hil & Hm & ->).
  destruct HM as [He Hlog Ho]. split.
  - intros x c. simpl. intros [_ Hx]%lookup_delete_Some. by apply He.
  - by apply log_ok_committed.
  - intros x. rewrite registered_committed. simpl. rewrite is_open_set_interest.
    intros [Hx _]%dom_delete%elem_of_difference.
    apply Ho. by rewrite (registered_live w il).
Qed.

Lemma reachable_Inv_more w : reachable w → Inv_more w.
Proof.
  induction 1 as [choice k k' ep H|fault conn w Hr IH|fault conn w Hr IH|].
  - by eapply Inv_more_MkEpoll.
  - apply Inv_more_Add; [by apply reachable_Inv|done].
  - apply Inv_more_Remove; [by apply reachable_Inv|done].
  - by rewrite Wait_keeps_world.
Qed.

(** ** When a call succeeds *)

Lemma Add_succeeds conn sfd w il :
  Inv w → live w il → socketFD conn = Ok sfd →
  il !! sfd = None → unix.is_open (os w) sfd = true → sfd ≠ fd (e w) →
  Add None conn w
    = Returned None
        (committed (unix.set_interest (os w) (fd (e w))
                      (<[sfd := registration sfd]> il)) w
                   (<[sfd := conn]> (connections (e w)))).
Proof.
  intros HI [Ho Hil] Hfd Hnone Hopen Hne. rewrite (Add_unfold _ _ sfd) by done.
  unfold unix.EpollCtl. unfold interest in Hil. rewrite Ho, Hopen, Hil. simpl.
  rewrite bool_decide_eq_false_2 by done. rewrite Hnone.
  by rewrite Inv_lock_free.
Qed.

Lemma Add_registered conn sfd w :
  Inv w → registered_open w → socketFD conn = Ok sfd → sfd ∈ registered w →
  Add None conn w = Returned (Some EEXIST) w.
Proof.
  intros HI Ho Hfd Hin. destruct (Ho sfd Hin) as [Hopen Hne].
  destruct (inv_live w HI) as (il & [Hoe Hil] & _).
  rewrite (registered_live w il) in Hin by done.
  apply elem_of_dom in Hin as [x Hx].
  rewrite (Add_unfold _ _ sfd) by done.
  rewrite (EpollCtl_ADD_registered _ _ _ _ il x) by done.
  by rewrite with_kernel_same.
Qed.

Lemma Remove_succeeds conn sfd w il :
  Inv w → registered_open w → live w il → socketFD conn = Ok sfd →
  sfd ∈ registered w →
  Remove None conn w
    = Returned None
        (committed (unix.set_interest (os w) (fd (e w)) (delete sfd il)) w
                   (delete sfd (connections (e w)))).
Proof.
  intros HI Ho [Hoe Hil] Hfd Hin. destruct (Ho sfd Hin) as [Hopen Hne].
  rewrite (registered_live w il) in Hin by done.
  apply elem_of_dom in Hin as [x Hx].
  rewrite (Remove_unfold _ _ sfd) by done.
  rewrite (EpollCtl_DEL_registered _ _ _ _ il x) by done.
  by rewrite Inv_lock_free.
Qed.

Lemma EpollCtl_DEL_ENOENT epfd sfd ev k il :
  unix.is_open k epfd = true → unix.is_open k sfd = true → sfd ≠ epfd →
  epolls k !! epfd = Some il → il !! sfd = None →
  unix.EpollCtl None epfd syscall.EPOLL_CTL_DEL sfd ev k = (k, Some ENOENT).
Proof.
  intros Ho1 Ho2 Hne Hil Hx. unfold unix.EpollCtl. rewrite Ho1, Ho2, Hil. simpl.
  rewrite bool_decide_eq_false_2 by done. by rewrite Hx.
Qed.

Lemma set_interest_twice k epfd il il' :
  unix.set_interest (unix.set_interest k epfd il) epfd il'
  = unix.set_interest k epfd il'.
Proof. unfold unix.set_interest. simpl. by rewrite insert_insert_eq. Qed.

Lemma set_interest_same k epfd il :
  epolls k !! epfd = Some il → unix.set_interest k epfd il = k.
Proof.
  intros H. unfold unix.set_interest. rewrite insert_id by done. by destruct k.
Qed.

Lemma registration_record sfd :
  0 ≤ sfd < 2 ^ 31 →
  registration sfd = {| Events := 0x11; Fd := sfd; Pad := 0 |}.
Proof. intros H. unfold registration. rewrite int32_small by lia. done. Qed.

Lemma is_open_range k x : unix.is_open k x = true → 0 ≤ x < 2 ^ 31.
Proof.
  unfold unix.is_open.
  intros [[?%Z.leb_le ?%Z.ltb_lt]%andb_prop _]%andb_prop. lia.
Qed.

(** ** [MkEpoll], [Add] and [Remove] *)



(** X2: a call to [Add] that returns nil, between calls, has resolved the
    handle to a descriptor that was not in the table, put the handle into
    the table under it, so that the table has exactly one entry more, and
    registered the descriptor with the kernel for POLLIN and POLLHUP with
    the descriptor as the event's data; the lock is free again. *)
Theorem Add_success_effect fault conn w w' :
  reachable w → Add fault conn w = Returned None w' →
  ∃ sfd il,
    socketFD conn = Ok sfd ∧ interest w = Some il ∧ (sfd ∉ tracked w) ∧
    connections (e w') = <[sfd := conn]> (connections (e w)) ∧
    size (connections (e w')) = S (size (connections (e w))) ∧
    interest w' = Some (<[sfd := {| Events := 0x11; Fd := sfd; Pad := 0 |}]> il) ∧
    lock (e w') = sync.unlocked.
Proof.
  intros Hr H. pose proof (reachable_Inv w Hr) as HI.
  destruct (Add_nil_descriptor _ _ _ _ H) as [sfd Hfd].
  destruct (Add_success _ _ _ _ _ HI Hfd H)
    as (il & [Ho Hil] & Hnone & Hm & Hopen & Hne & -> & _).
  exists sfd, il. split_and!; try done.
  - by apply not_elem_of_dom.
  - simpl. by apply map_size_insert_None.
  - rewrite interest_committed, registration_record; [done|].
    by eapply is_open_range.
Qed.

Lemma Add_success_effect_witness :
  ∃ sfd il,
    socketFD conn6 = Ok sfd ∧ interest (after (Add None conn5 world0)) = Some il ∧
    (sfd ∉ tracked (after (Add None conn5 world0))) ∧
    connections (e world2) = <[sfd := conn6]> (connections (e (after (Add None conn5 world0)))) ∧
    size (connections (e world2)) = S (size (connections (e (after (Add None conn5 world0))))) ∧
    interest world2 = Some (<[sfd := {| Events := 0x11; Fd := sfd; Pad := 0 |}]> il) ∧
    lock (e world2) = sync.unlocked.
Proof.
  apply (Add_success_effect None conn6 (after (Add None conn5 world0)) world2).
  - apply reach_Add. exact reachable_world0.
  - vm_compute. reflexivity.
Defined.

(** X3: a call to [Remove] that returns nil, between calls, has resolved
    the handle to a descriptor that had a table entry, whose handle resolves
    to the same descriptor, deleted that entry, so that the table has
    exactly one entry fewer, and taken the descriptor off the interest list
    of the kernel; the lock is free again. *)
Theorem Remove_success_effect fault conn w w' :
  reachable w → Remove fault conn w = Returned None w' →
  ∃ sfd il c,
    socketFD conn = Ok sfd ∧ interest w = Some il ∧
    connections (e w) !! sfd = Some c ∧ socketFD c = Ok sfd ∧
    connections (e w') = delete sfd (connections (e w)) ∧
    S (size (connections (e w'))) = size (connections (e w)) ∧
    interest w' = Some (delete sfd il) ∧
    lock (e w') = sync.unlocked.
Proof.
  intros Hr H. pose proof (reachable_Inv w Hr) as HI.
  pose proof (reachable_Inv_more w Hr) as HM.
  destruct (Remove_nil_descriptor _ _ _ _ H) as [sfd Hfd].
  destruct (Remove_success _ _ _ _ _ HI Hfd H)
    as (il & [Ho Hil] & Hsome & [c Hc] & ->).
  exists sfd, il, c. split_and!; try done.
  - by apply (im_entries w HM).
  - simpl. rewrite map_size_delete_Some by done.
    assert (size (connections (e w)) ≠ 0%nat); [|lia].
    intros Hz%map_size_empty_inv. rewrite Hz in Hc. by rewrite lookup_empty in Hc.
  - by rewrite interest_committed.
Qed.

Lemma Remove_success_effect_witness :
  ∃ sfd il c,
    socketFD conn5' = Ok sfd ∧ interest world2 = Some il ∧
    connections (e world2) !! sfd = Some c ∧ socketFD c = Ok sfd ∧
    connections (e (after (Remove None conn5' world2)))
      = delete sfd (connections (e world2)) ∧
    S (size (connections (e (after (Remove None conn5' world2)))))
      = size (connections (e world2)) ∧
    interest (after (Remove None conn5' world2)) = Some (delete sfd il) ∧
    lock (e (after (Remove None conn5' world2))) = sync.unlocked.
Proof.
  apply (Remove_success_effect None conn5' world2).
  - exact reachable_world2.
  - vm_compute. reflexivity.
Defined.

(** X4: between calls, [Add] on a handle whose descriptor is in the table
    already, be it the same handle or another one on that descriptor, fails
    with EEXIST (when the kernel has no failure of its own to report) and
    changes nothing: the entry is not replaced. *)
Theorem Add_registered_fails conn sfd w :
  reachable w → socketFD conn = Ok sfd → sfd ∈ tracked w →
  Add None conn w = Returned (Some EEXIST) w.
Proof.
  intros Hr Hfd Hin. pose proof (reachable_Inv w Hr) as HI.
  apply Add_registered with sfd; try done.
  - apply (im_open w), reachable_Inv_more, Hr.
  - by rewrite <- (inv_keys w HI).
Qed.

Lemma Add_registered_fails_witness :
  Add None conn5' world2 = Returned (Some EEXIST) world2.
Proof.
  apply (Add_registered_fails conn5' 5 world2).
  - exact reachable_world2.
  - vm_compute. reflexivity.
  - apply (bool_decide_unpack _). vm_compute. exact I.
Defined.

(** X5: [Remove] undoes [Add].  After an [Add] that returned nil, [Remove]
    with a handle on the same descriptor returns nil, and the kernel and
    the multiplexer (descriptor, table and lock) are as they were before
    the [Add]. *)
Theorem Add_then_Remove_restores fault conn conn' sfd w w1 :
  reachable w → socketFD conn = Ok sfd → socketFD conn' = Ok sfd →
  Add fault conn w = Returned None w1 →
  ∃ w2, Remove None conn' w1 = Returned None w2 ∧ os w2 = os w ∧ e w2 = e w.
Proof.
  intros Hr Hfd Hfd' H. pose proof (reachable_Inv w Hr) as HI.
  assert (reachable w1) as Hr1.
  { replace w1 with (after (Add fault conn w)) by by rewrite H.
    by apply reach_Add. }
  destruct (Add_success _ _ _ _ _ HI Hfd H)
    as (il & [Ho Hil] & Hnone & Hm & Hopen & Hne & -> & _).
  eexists. split.
  - apply Remove_succeeds with (sfd := sfd); try done.
    + by apply reachable_Inv.
    + apply im_open. by apply reachable_Inv_more.
    + split; [done|]. apply interest_committed.
    + rewrite registered_committed. set_solver.
  - simpl. rewrite set_interest_twice, !delete_insert_id by done.
    split; [by apply set_interest_same|].
    pose proof (inv_lock w HI) as Hlock. destruct (e w). simpl in *.
    by rewrite Hlock.
Qed.

Lemma Add_then_Remove_restores_witness :
  ∃ w2, Remove None conn5' (after (Add None conn5 world0)) = Returned None w2 ∧
        os w2 = os world0 ∧ e w2 = e world0.
Proof.
  apply (Add_then_Remove_restores None conn5 conn5' 5 world0).
  - exact reachable_world0.
  - vm_compute. reflexivity.
  - vm_compute. reflexivity.
  - vm_compute. reflexivity.
Defined.

(** X6: [Remove] is not idempotent.  After a [Remove] that returned nil, a
    second [Remove] of the handle fails with ENOENT and changes nothing. *)
Theorem Remove_twice_fails fault conn sfd w w1 :
  reachable w → socketFD conn = Ok sfd →
  Remove fault conn w = Returned None w1 →
  Remove None conn w1 = Returned (Some ENOENT) w1.
Proof.
  intros Hr Hfd H. pose proof (reachable_Inv w Hr) as HI.
  destruct (Remove_success _ _ _ _ _ HI Hfd H)
    as (il & [Ho Hil] & Hsome & _ & ->).
  destruct (im_open w (reachable_Inv_more w Hr) sfd) as [Hopen Hne].
  { rewrite (registered_live w il) by done. by apply elem_of_dom. }
  rewrite (Remove_unfold _ _ sfd) by done.
  rewrite (EpollCtl_DEL_ENOENT _ _ _ _ (delete sfd il)); try done.
  - simpl. by rewrite lookup_insert_eq.
  - by rewrite lookup_delete_eq.
Qed.

Lemma Remove_twice_fails_witness :
  Remove None conn5 (after (Remove None conn5 world2))
    = Returned (Some ENOENT) (after (Remove None conn5 world2)).
Proof.
  apply (Remove_twice_fails None conn5 5 world2).
  - exact reachable_world2.
  - vm_compute. reflexivity.
  - vm_compute. reflexivity.
Defined.

(** X7: the count is logged also when it is zero.  Between calls, a
    [Remove] of the only connection in the table succeeds, leaves the
    table empty and logs a total of 0 connections. *)
Theorem Remove_last_logs_zero conn sfd w :
  reachable w → socketFD conn = Ok sfd → tracked w = {[sfd]} →
  ∃ w', Remove None conn w = Returned None w' ∧
        connections (e w') = ∅ ∧ logged w' = logged w ++ [0].
Proof.
  intros Hr Hfd Ht. pose proof (reachable_Inv w Hr) as HI.
  destruct (inv_live w HI) as (il & Hl & _).
  eexists. split.
  - apply Remove_succeeds with (sfd := sfd) (il := il); try done.
    + apply im_open. by apply reachable_Inv_more.
    + rewrite <- (inv_keys w HI), Ht. set_solver.
  - assert (delete sfd (connections (e w)) = ∅) as ->.
    { apply dom_empty_inv_L. unfold tracked in Ht. rewrite dom_delete_L, Ht.
      apply difference_diag_L. }
    done.
Qed.

Lemma Remove_last_logs_zero_witness :
  ∃ w', Remove None conn5 (after (Add None conn5 world0)) = Returned None w' ∧
        connections (e w') = ∅ ∧
        logged w' = logged (after (Add None conn5 world0)) ++ [0].
Proof.
  apply (Remove_last_logs_zero conn5 5 (after (Add None conn5 world0))).
  - apply reach_Add. exact reachable_world0.
  - vm_compute. reflexivity.
  - apply (bool_decide_unpack _). vm_compute. exact I.
Defined.

(** X8: two calls to [Add] that both return nil can be made in either
    order: the other order succeeds as well and ends in the same world,
    the log included. *)
Theorem Adds_commute f1 f2 c1 c2 w w1 w12 :
  reachable w →
  Add f1 c1 w = Returned None w1 → Add f2 c2 w1 = Returned None w12 →
  ∃ w2, Add f2 c2 w = Returned None w2 ∧ Add f1 c1 w2 = Returned None w12.
Proof.
  intros Hr H1 H2. pose proof (reachable_Inv w Hr) as HI.
  assert (Inv w1) as HI1.
  { replace w1 with (after (Add f1 c1 w)) by by rewrite H1. by apply Inv_Add. }
  destruct (Add_nil_descriptor _ _ _ _ H1) as [s1 Hs1].
  destruct (Add_nil_descriptor _ _ _ _ H2) as [s2 Hs2].
  destruct (Add_success _ _ _ _ _ HI Hs1 H1)
    as (il & Hl & Hn1 & Hm1 & Ho1 & Hne1 & -> & ->).
  destruct (Add_success _ _ _ _ _ HI1 Hs2 H2)
    as (il1 & [_ Hil1] & Hn2 & Hm2 & Ho2 & Hne2 & -> & ->).
  rewrite interest_committed in Hil1. simplify_eq. simpl in *.
  apply lookup_insert_None in Hn2 as [Hn2 Hne].
  apply lookup_insert_None in Hm2 as [Hm2 _].
  pose proof (Add_succeeds c2 s2 w il HI Hl Hs2 Hn2 Ho2 Hne2) as E2.
  eexists. split; [exact E2|].
  assert (Inv (after (Add None c2 w))) as HI2 by by apply Inv_Add.
  rewrite E2 in HI2. simpl in HI2.
  rewrite (Add_succeeds c1 s1 _ (<[s2 := registration s2]> il)); try done.
  - f_equal. unfold committed. simpl.
    rewrite !set_interest_twice.
    rewrite (insert_insert_ne il s1 s2) by done.
    rewrite (insert_insert_ne (connections (e w)) s1 s2) by done.
    rewrite !map_size_insert_None by (done || by rewrite lookup_insert_ne).
    done.
  - split; [by destruct Hl|]. apply interest_committed.
  - by rewrite lookup_insert_ne.
Qed.

Lemma Adds_commute_witness :
  ∃ w2, Add None conn6 world0 = Returned None w2 ∧
        Add None conn5 w2 = Returned None world2.
Proof.
  apply (Adds_commute None None conn5 conn6 world0 (after (Add None conn5 world0))).
  - exact reachable_world0.
  - vm_compute. reflexivity.
  - vm_compute. reflexivity.
Defined.

(** ** What no call does *)

Lemma EpollCtl_frame fault epfd op sfd ev k k' err :
  unix.EpollCtl fault epfd op sfd ev k = (k', err) →
  open_fds k' = open_fds k ∧
  ∀ x, x ≠ epfd → epolls k' !! x = epolls k !! x.
Proof.
  unfold unix.EpollCtl. intros H.
  repeat (case_match; simplify_eq; try done);
    (split; [done|]); intros x Hx; simpl; by rewrite lookup_insert_ne.
Qed.

Lemma same_elsewhere_refl w : same_elsewhere w w.
Proof. done. Qed.

Lemma same_elsewhere_ctl fault op sfd ev w k err w' :
  unix.EpollCtl fault (fd (e w)) op sfd ev (os w) = (k, err) →
  os w' = k → fd (e w') = fd (e w) → same_elsewhere w w'.
Proof.
  intros [Ho He]%EpollCtl_frame Hos Hfd. unfold same_elsewhere.
  rewrite Hos. by split_and!.
Qed.

(** X9: a call to [Add], [Remove] or [Wait], whatever its outcome, leaves
    the descriptor of the multiplexer, the set of open descriptors of the
    process and every other epoll instance as they were: no call opens or
    closes a descriptor. *)
Theorem calls_touch_nothing_else fault conn wakes w :
  same_elsewhere w (after (Add fault conn w)) ∧
  same_elsewhere w (after (Remove fault conn w)) ∧
  same_elsewhere w (after (Wait wakes w)).
Proof.
  split_and!.
  - destruct (socketFD conn) as [sfd|p] eqn:Hfd.
    + rewrite (Add_unfold _ _ sfd) by done.
      destruct (unix.EpollCtl _ _ _ _ _ _) as [k err] eqn:Hctl.
      apply (same_elsewhere_ctl _ _ _ _ _ _ _ _ Hctl);
        destruct err; try destruct (lock_free _); done.
    + rewrite (Add_panics _ _ p) by done. apply same_elsewhere_refl.
  - destruct (socketFD conn) as [sfd|p] eqn:Hfd.
    + rewrite (Remove_unfold _ _ sfd) by done.
      destruct (unix.EpollCtl _ _ _ _ _ _) as [k err] eqn:Hctl.
      apply (same_elsewhere_ctl _ _ _ _ _ _ _ _ Hctl);
        destruct err; try destruct (lock_free _); done.
    + rewrite (Remove_panics _ _ p) by done. apply same_elsewhere_refl.
  - rewrite Wait_keeps_world. apply same_elsewhere_refl.
Qed.

(** X10: [Add] and [Remove] panic only inside [socketFD], with its panic
    and before they have changed anything; in particular the deferred
    unlock never runs on a lock that is not held. *)
Theorem panics_come_from_socketFD fault conn w p w' :
  Add fault conn w = Panicked p w' ∨ Remove fault conn w = Panicked p w' →
  socketFD conn = Panic p ∧ w' = w.
Proof.
  destruct (socketFD conn) as [sfd|q] eqn:Hfd.
  - rewrite (Add_unfold _ _ sfd), (Remove_unfold _ _ sfd) by done.
    intros [H|H]; destruct (unix.EpollCtl _ _ _ _ _ _) as [k [err|]];
      try destruct (lock_free _); done.
  - rewrite (Add_panics _ _ q), (Remove_panics _ _ q) by done.
    intros [H|H]; by simplify_eq.
Qed.

Lemma panics_come_from_socketFD_witness :
  socketFD wrappedConn = Panic (ValueError "reflect.Value.FieldByName" KOther) ∧
  world2 = world2.
Proof.
  apply (panics_come_from_socketFD None wrappedConn world2).
  left. vm_compute. reflexivity.
Defined.

(** X11: [Add] and [Remove] called while the lock is free never wait for
    it, and [Add], [Remove] and [Wait] leave the lock free, whatever their
    outcome. *)
Theorem lock_is_released fault conn wakes w :
  lock (e w) = sync.unlocked →
  (∀ w', Add fault conn w ≠ Blocked w') ∧
  (∀ w', Remove fault conn w ≠ Blocked w') ∧
  lock (e (after (Add fault conn w))) = sync.unlocked ∧
  lock (e (after (Remove fault conn w))) = sync.unlocked ∧
  lock (e (after (Wait wakes w))) = sync.unlocked.
Proof.
  intros Hl. rewrite Wait_keeps_world.
  destruct (socketFD conn) as [sfd|q] eqn:Hfd.
  - rewrite (Add_unfold _ _ sfd), (Remove_unfold _ _ sfd) by done.
    rewrite Hl. simpl.
    destruct (unix.EpollCtl _ _ syscall.EPOLL_CTL_ADD _ _ _) as [k [err|]];
      destruct (unix.EpollCtl _ _ syscall.EPOLL_CTL_DEL _ _ _) as [k' [err'|]];
      by split_and!.
  - rewrite (Add_panics _ _ q), (Remove_panics _ _ q) by done. by split_and!.
Qed.

Lemma lock_is_released_witness :
  (∀ w', Add None conn7 world2 ≠ Blocked w') ∧
  (∀ w', Remove None conn7 world2 ≠ Blocked w') ∧
  lock (e (after (Add None conn7 world2))) = sync.unlocked ∧
  lock (e (after (Remove None conn7 world2))) = sync.unlocked ∧
  lock (e (after (Wait [unix.Ready [5]] world2))) = sync.unlocked.
Proof.
  apply (lock_is_released None conn7 [unix.Ready [5]] world2).
  vm_compute. reflexivity.
Defined.

(** ** The table and the log between calls *)

Lemma socketFD_not_nil c k : socketFD c = Ok k → c ≠ NilConn.
Proof. by intros H ->. Qed.

(** X12: between calls every entry of the table sits under the descriptor
    its handle resolves to; the handle is not nil, and the descriptor is a
    non-negative C int, open, registered with the kernel, and not the
    descriptor of the multiplexer itself. *)
Theorem table_entries_resolve w k c :
  reachable w → connections (e w) !! k = Some c →
  socketFD c = Ok k ∧ c ≠ NilConn ∧ 0 ≤ k < 2 ^ 31 ∧
  unix.is_open (os w) k = true ∧ k ∈ registered w ∧ k ≠ fd (e w).
Proof.
  intros Hr Hc. destruct (reachable_Inv_more w Hr) as [He _ Ho].
  pose proof (He k c Hc) as Hfd.
  assert (k ∈ registered w) as Hin.
  { rewrite <- (inv_keys w (reachable_Inv w Hr)). by apply elem_of_dom. }
  destruct (Ho k Hin) as [Hopen Hne].
  pose proof (is_open_range _ _ Hopen).
  split_and!; try done; try lia. by eapply socketFD_not_nil.
Qed.

Lemma table_entries_resolve_witness :
  socketFD conn6 = Ok 6 ∧ conn6 ≠ NilConn ∧ 0 ≤ 6 < 2 ^ 31 ∧
  unix.is_open (os world2) 6 = true ∧ 6 ∈ registered world2 ∧ 6 ≠ fd (e world2).
Proof.
  apply (table_entries_resolve world2 6 conn6).
  - exact reachable_world2.
  - vm_compute. reflexivity.
Defined.

(** X13: between calls every count in the log is a multiple of 100 (zero
    included): a line is written only when the table holds such a number of
    connections right after a store or a delete. *)
Theorem log_counts_are_multiples_of_100 w :
  reachable w → Forall (λ n, 0 ≤ n ∧ n `rem` 100 = 0) (logged w).
Proof. intros Hr. apply (im_log w), reachable_Inv_more, Hr. Qed.

Lemma log_counts_are_multiples_of_100_witness :
  Forall (λ n, 0 ≤ n ∧ n `rem` 100 = 0)
         (logged (after (Remove None conn5 (after (Add None conn5 world0))))).
Proof.
  apply (log_counts_are_multiples_of_100
           (after (Remove None conn5 (after (Add None conn5 world0))))).
  apply reach_Remove, reach_Add. exact reachable_world0.
Defined.

(** ** More on [Wait] *)

Lemma Wait_retry_nil w il events :
  live w il → events ≠ [] → Wait_retry [] events w = Blocked w.
Proof.
  intros Hl Hev. rewrite Wait_retry_unfold.
  by rewrite (EpollWait_live _ _ il).
Qed.

Lemma Wait_retry_Fault w il err wakes events :
  live w il → events ≠ [] → err ≠ EINTR →
  Wait_retry (unix.Fault err :: wakes) events w = Returned ([], Some err) w.
Proof.
  intros Hl Hev Hne. rewrite Wait_retry_unfold.
  rewrite (EpollWait_live _ _ il) by done. simpl. by rewrite decide_False.
Qed.

Lemma Wait_result_entries wakes w conns err w' :
  Inv w → Wait wakes w = Returned (conns, err) w' →
  Forall (λ c, ∃ k, k ∈ registered w ∧ connections (e w) !! k = Some c) conns.
Proof.
  intros HI. unfold Wait.
  wait_cases wakes w H; rewrite H; [done|intros [= <- <- <-]..];
    try by apply Forall_nil.
  destruct (Inv_live w _ HI ltac:(eassumption)) as [Hl Hreg].
  rewrite fmap_take, reported_registered by done.
  apply Forall_take, Forall_fmap, Forall_forall.
  intros sfd [Hin _]%list_elem_of_filter. simpl. exists sfd.
  rewrite (registered_live w _ Hl). split; [done|].
  rewrite <- (registered_live w _ Hl), <- (inv_keys w HI) in Hin.
  unfold tracked in Hin. apply elem_of_dom in Hin as [c ->]. done.
Qed.

(** X14: [Wait] never panics (its loop indexes the buffer below the count
    the kernel returned, and its deferred unlock finds the read lock
    held), and whatever its outcome it leaves the world as it was. *)
Theorem Wait_never_panics wakes w :
  (∀ p w', Wait wakes w ≠ Panicked p w') ∧ after (Wait wakes w) = w.
Proof.
  split; [|apply Wait_keeps_world].
  intros p w'. unfold Wait. wait_cases wakes w H; by rewrite H.
Qed.

(** X15: on a multiplexer in place whose lock no writer holds, [Wait] is
    still waiting after a sequence of wake-ups exactly when each of them
    was a signal (EINTR) or readiness of descriptors none of which is
    registered. *)
Theorem Wait_keeps_waiting w il wakes :
  live w il → writer (lock (e w)) = false →
  Wait wakes w = Blocked w ↔ Forall (passed_over il) wakes.
Proof.
  intros Hl Hw. unfold Wait.
  assert (replicate 100 zeroEvent ≠ []) as Hev by done.
  split.
  - induction wakes as [|wk wakes IH]; [by intros; apply Forall_nil|].
    destruct (passed_over il wk) eqn:Hp.
    + intros H. apply Forall_cons. split; [by rewrite Hp|]. apply IH.
      rewrite <- H. symmetry.
      apply (Wait_retry_passed_over w il [wk]); try done.
      apply Forall_singleton. by rewrite Hp.
    + destruct wk as [fds| |err]; simpl in Hp.
      * apply bool_decide_eq_false in Hp.
        rewrite (Wait_retry_Ready w il) by done. by rewrite Hw.
      * rewrite (Wait_retry_Timeout w il) by done. by rewrite Hw.
      * apply bool_decide_eq_false in Hp.
        by rewrite (Wait_retry_Fault w il).
  - intros H. rewrite <- (app_nil_r wakes).
    rewrite (Wait_retry_passed_over w il) by done.
    by apply (Wait_retry_nil w il).
Qed.

Lemma Wait_keeps_waiting_witness :
  Wait [unix.Fault EINTR; unix.Ready [7; 2]; unix.Fault EINTR] world2
    = Blocked world2.
Proof.
  apply (Wait_keeps_waiting world2 (default ∅ (interest world2))).
  - split; vm_compute; reflexivity.
  - vm_compute. reflexivity.
  - apply (bool_decide_unpack _). vm_compute. exact I.
Defined.

(** X16: an error of the wait system call other than EINTR ends [Wait]
    with a nil list and that error, signals and readiness of unregistered
    descriptors before it notwithstanding; and a [Wait] on a multiplexer
    whose descriptor is closed does not wait at all but returns EBADF. *)
Theorem Wait_reports_errors w wakes :
  (unix.is_open (os w) (fd (e w)) = false →
   Wait wakes w = Returned ([], Some EBADF) w) ∧
  (∀ il pre err, live w il → Forall (passed_over il) pre → err ≠ EINTR →
     Wait (pre ++ unix.Fault err :: wakes) w = Returned ([], Some err) w).
Proof.
  split.
  - intros Ho. unfold Wait. apply Wait_retry_entry_error; [done|].
    intros wk. unfold unix.EpollWait. by rewrite Ho.
  - intros il pre err Hl Hpre Hne. unfold Wait.
    rewrite (Wait_retry_passed_over w il) by done.
    by apply (Wait_retry_Fault w il).
Qed.

Lemma Wait_reports_errors_witness :
  Wait [unix.Ready [5]] world_closed = Returned ([], Some EBADF) world_closed ∧
  Wait ([unix.Fault EINTR; unix.Ready [7]] ++ unix.Fault EFAULT :: [unix.Ready [5]]) world2
    = Returned ([], Some EFAULT) world2.
Proof.
  destruct (Wait_reports_errors world_closed [unix.Ready [5]]) as [H1 _].
  destruct (Wait_reports_errors world2 [unix.Ready [5]]) as [_ H2].
  split.
  - apply H1. vm_compute. reflexivity.
  - apply (H2 (default ∅ (interest world2))).
    + split; vm_compute; reflexivity.
    + apply (bool_decide_unpack _). vm_compute. exact I.
    + discriminate.
Defined.

(** X17: between calls [Wait] never returns a nil handle: every handle in
    its result is the table's entry for a registered descriptor, and
    resolves to that descriptor. *)
Theorem Wait_returns_table_entries wakes w conns err w' :
  reachable w → Wait wakes w = Returned (conns, err) w' →
  Forall (λ c, c ≠ NilConn ∧
               ∃ k, k ∈ registered w ∧ connections (e w) !! k = Some c ∧
                    socketFD c = Ok k) conns.
Proof.
  intros Hr H.
  pose proof (Wait_result_entries _ _ _ _ _ (reachable_Inv w Hr) H) as HF.
  pose proof (im_entries w (reachable_Inv_more w Hr)) as He.
  eapply Forall_impl; [exact HF|]. simpl.
  intros c (k & Hin & Hc). pose proof (He k c Hc) as Hfd.
  split; [by eapply socketFD_not_nil|]. by exists k.
Qed.

Lemma Wait_returns_table_entries_witness :
  Forall (λ c, c ≠ NilConn ∧
               ∃ k, k ∈ registered world2 ∧ connections (e world2) !! k = Some c ∧
                    socketFD c = Ok k) [conn6; conn5].
Proof.
  apply (Wait_returns_table_entries [unix.Ready [6; 7; 5]] world2 [conn6; conn5]
           None world2).
  - exact reachable_world2.
  - vm_compute. reflexivity.
Defined.

(** X18: after an [Add] that returned nil, a [Wait] woken up because the
    descriptor of the added handle is ready returns that handle. *)
Theorem Add_then_Wait_returns_it fault conn sfd w w1 wakes :
  reachable w → socketFD conn = Ok sfd →
  Add fault conn w = Returned None w1 →
  Wait (unix.Ready [sfd] :: wakes) w1 = Returned ([conn], None) w1.
Proof.
  intros Hr Hfd H. pose proof (reachable_Inv w Hr) as HI.
  destruct (Add_success _ _ _ _ _ HI Hfd H)
    as (il & [Ho Hil] & Hnone & Hm & Hopen & Hne & -> & _).
  pose proof (is_open_range _ _ Hopen) as Hrange.
  unfold Wait.
  rewrite (Wait_retry_Ready _ (<[sfd := registration sfd]> il)).
  - simpl. unfold unix.reported. simpl. rewrite lookup_insert_eq. simpl.
    rewrite lookup_conn_registration by done. by rewrite lookup_insert_eq.
  - split; [done|]. apply interest_committed.
  - done.
  - unfold unix.reported. simpl. by rewrite lookup_insert_eq.
Qed.

Lemma Add_then_Wait_returns_it_witness :
  Wait (unix.Ready [6] :: [unix.Timeout]) world2 = Returned ([conn6], None) world2.
Proof.
  apply (Add_then_Wait_returns_it None conn6 6 (after (Add None conn5 world0)) world2).
  - apply reach_Add. exact reachable_world0.
  - vm_compute. reflexivity.
  - vm_compute. reflexivity.
Defined.



(** X20: the descriptor survives the trip through the event record:
    [Add] stores [int32(fd)] in the record and [Wait] reads [int] of it
    back, and that is the descriptor again exactly for the descriptors
    that fit into 32 bits, as every descriptor of the kernel does. *)
Theorem descriptor_round_trip sfd :
  int (Fd (registration sfd)) = sfd ↔ - 2 ^ 31 ≤ sfd < 2 ^ 31.
Proof.
  assert (- 2 ^ 31 ≤ int32 sfd < 2 ^ 31) as Hr.
  { unfold int32, wrap_signed.
    pose proof (Z.mod_pos_bound (sfd + 2 ^ (32 - 1)) (2 ^ 32) eq_refl). lia. }
  simpl. rewrite int_small by lia. split.
  - intros <-. exact Hr.
  - apply int32_small.
Qed.

(** ** Calls that overlap *)

Lemma add_step_start fault conn sfd w :
  socketFD conn = Ok sfd →
  add_step (spawn conn fault) w =
    match unix.EpollCtl fault (fd (e w)) syscall.EPOLL_CTL_ADD sfd
            (Some (registration sfd)) (os w) with
    | (k, Some err) => Some (at_pc (spawn conn fault) (AddDone (Some err)), with_kernel k w)
    | (k, None) => Some (at_pc (spawn conn fault) (AddLock sfd), with_kernel k w)
    end.
Proof.
  intros Hfd. unfold add_step, via, spawn, mbind, M_bind, bind, lift. simpl.
  rewrite Hfd. simpl. unfold sys_EpollCtl, registration.
  by destruct (unix.EpollCtl _ _ _ _ _ _) as [k [err|]].
Qed.

(** X21: [Add] registers the descriptor with the kernel before it stores
    the handle.  A [Wait] that runs between the two, woken up because the
    descriptor is ready, returns a nil handle for it. *)
Theorem Wait_during_Add_returns_nil fault conn sfd w t1 w1 wakes :
  reachable w → socketFD conn = Ok sfd →
  add_step (spawn conn fault) w = Some (t1, w1) → a_pc t1 = AddLock sfd →
  Wait (unix.Ready [sfd] :: wakes) w1 = Returned ([NilConn], None) w1.
Proof.
  intros Hr Hfd Hstep Hpc. pose proof (reachable_Inv w Hr) as HI.
  rewrite (add_step_start _ _ sfd) in Hstep by done.
  destruct (unix.EpollCtl _ _ _ _ _ _) as [k [err|]] eqn:Hctl; simplify_eq.
  apply EpollCtl_ADD_success in Hctl as (il & Hil & Hnone & Hopen & ->).
  destruct (Inv_live w il HI Hil) as [[Ho _] _].
  pose proof (is_open_range _ _ Hopen) as Hrange.
  assert (connections (e w) !! sfd = None) as Hm by by apply (Inv_lookup w il).
  unfold Wait.
  rewrite (Wait_retry_Ready _ (<[sfd := registration sfd]> il)).
  - simpl. rewrite (inv_lock w HI). simpl.
    unfold unix.reported. simpl. rewrite lookup_insert_eq. simpl.
    rewrite lookup_conn_registration by done. by rewrite Hm.
  - split; [done|]. unfold interest. simpl. by rewrite lookup_insert_eq.
  - done.
  - unfold unix.reported. simpl. by rewrite lookup_insert_eq.
Qed.

Lemma Wait_during_Add_returns_nil_witness :
  Wait (unix.Ready [7] :: [unix.Timeout]) world_mid_Add
    = Returned ([NilConn], None) world_mid_Add.
Proof.
  apply (Wait_during_Add_returns_nil None conn7 7 world2
           (at_pc (spawn conn7 None) (AddLock 7))).
  - exact reachable_world2.
  - vm_compute. reflexivity.
  - vm_compute. reflexivity.
  - reflexivity.
Defined.

(** X22: [Wait] looks the handles up after the system call has returned.
    When the kernel has reported a descriptor and a [Remove] of it
    completes before [Wait] takes the read lock, [Wait] returns a nil
    handle for it, never the removed handle. *)
Theorem Remove_during_Wait_returns_nil fault conn sfd w events n w1 :
  reachable w → socketFD conn = Ok sfd →
  unix.EpollWait (Some (unix.Ready [sfd])) (fd (e w))
    (replicate 100 zeroEvent) 100 (os w) = Some (events, n, None) →
  Remove fault conn w = Returned None w1 →
  Wait_finish n events w1 = Returned ([NilConn], None) w1.
Proof.
  intros Hr Hfd Hwait H. pose proof (reachable_Inv w Hr) as HI.
  destruct (Remove_success _ _ _ _ _ HI Hfd H)
    as (il & Hl & [ev Hev] & _ & ->).
  destruct (Inv_live w il HI (proj2 Hl)) as [_ Hreg].
  destruct (Hreg sfd ev Hev) as [-> Hrange].
  rewrite (EpollWait_live _ _ il) in Hwait by done.
  unfold unix.reported in Hwait. simpl in Hwait. rewrite Hev in Hwait.
  simpl in Hwait. simplify_eq.
  rewrite Wait_finish_eq by (simpl; lia). simpl.
  rewrite lookup_conn_registration by done. by rewrite lookup_delete_eq.
Qed.

Lemma Remove_during_Wait_returns_nil_witness :
  Wait_finish 1 (registration 5 :: replicate 99 zeroEvent)
              (after (Remove None conn5 world2))
    = Returned ([NilConn], None) (after (Remove None conn5 world2)).
Proof.
  apply (Remove_during_Wait_returns_nil None conn5 5 world2).
  - exact reachable_world2.
  - vm_compute. reflexivity.
  - vm_compute. reflexivity.
  - vm_compute. reflexivity.
Defined.

(** ** Concurrent calls come to an end *)

Lemma work_insert ts i t t' :
  ts !! i = Some t →
  (work (<[i := t']> ts) + steps_left (a_pc t)
   = work ts + steps_left (a_pc t'))%nat.
Proof.
  unfold work. revert i. induction ts as [|t0 ts IH]; intros [|i] Hi;
    simplify_eq/=; [lia|].
  specialize (IH i Hi). lia.
Qed.

Lemma pool_step_work c c' : pool_step c c' → (work c'.1 < work c.1)%nat.
Proof.
  destruct c as [ts w]. intros [i H]. unfold sched_step in H. simpl in *.
  destruct (ts !! i) as [t|] eqn:Ht; simplify_eq/=.
  destruct (add_step t w) as [[t' w']|] eqn:Hs; simplify_eq/=.
  pose proof (work_insert ts i t t' Ht) as Hw.
  apply add_step_inv in Hs as [_ Hs].
  assert (steps_left (a_pc t') < steps_left (a_pc t))%nat; [|lia].
  destruct Hs as [(-> & _ & [(p & _ & ->)|(sfd & _ & [->|[err ->]])])
                 |[(sfd & -> & -> & _)
                 |[(sfd & -> & -> & _)
                 |[(sfd & -> & -> & _)
                 |(-> & [(_ & -> & _)|(_ & -> & _)])]]]]; simpl; lia.
Qed.

Lemma nsteps_work n c c' :
  nsteps pool_step n c c' → (n + work c'.1 ≤ work c.1)%nat.
Proof.
  induction 1 as [|n c c1 c' Hs _ IH]; [lia|].
  apply pool_step_work in Hs. lia.
Qed.

Lemma work_spawn conns faults :
  (work (zip_with spawn conns faults) ≤ 5 * length conns)%nat.
Proof.
  unfold work. revert faults.
  induction conns as [|c conns IH]; intros [|f faults]; simpl; try lia.
  specialize (IH faults). unfold fmap in IH. lia.
Qed.

Lemma pool_progress conns fds w0 c i t :
  pool_inv conns fds w0 c → c.1 !! i = Some t → finished (a_pc t) = false →
  ∃ c', pool_step c c'.
Proof.
  destruct c as [ts w]. intros [Hc Hloc Hst Hoth Hrd Hex Hwr] Ht Hfin.
  simpl in *.
  assert (∀ j tj, ts !! j = Some tj → is_Some (add_step tj w) →
                  ∃ c', pool_step (ts, w) c') as Hgo.
  { intros j tj Hj [[t' w'] Hs]. exists (<[j := t']> ts, w'), j.
    unfold sched_step. simpl. rewrite Hj. simpl. by rewrite Hs. }
  destruct (writer (lock (e w))) eqn:Hw.
  - destruct (proj1 Hwr eq_refl) as (j & tj & Hj & Hcs).
    apply (Hgo j tj Hj). apply add_step_enabled; [|done|congruence].
    by destruct (a_pc tj).
  - apply (Hgo i t Ht). apply add_step_enabled; [done| |].
    + intros Hcs. rewrite Hw. apply Hwr. eauto.
    + intros _. unfold lock_free. rewrite Hw, Hrd. done.
Qed.

Lemma pool_finishes conns fds w0 :
  Forall2 (λ conn sfd, socketFD conn = Ok sfd) conns fds → NoDup fds →
  ∀ n c, (work c.1 ≤ n)%nat → pool_inv conns fds w0 c →
  ∃ c', rtc pool_step c c' ∧ Forall (λ t, finished (a_pc t) = true) c'.1.
Proof.
  intros Hfds Hnd. induction n as [|n IH]; intros c Hn HP.
  - exists c. split; [done|]. apply Forall_lookup. intros i t Ht.
    destruct (finished (a_pc t)) eqn:Hfin; [done|].
    destruct (pool_progress _ _ _ _ _ _ HP Ht Hfin) as [c' Hs].
    apply pool_step_work in Hs. lia.
  - destruct (decide (Forall (λ t, finished (a_pc t) = true) c.1)) as [HF|HF].
    + by exists c.
    + apply not_Forall_Exists in HF; [|apply _].
      apply Exists_exists in HF as (t & [i Ht]%list_elem_of_lookup & Hfin).
      apply not_true_is_false in Hfin.
      destruct (pool_progress _ _ _ _ _ _ HP Ht Hfin) as [c1 Hs].
      destruct (IH c1) as (c' & Hrtc & Hdone).
      * apply pool_step_work in Hs. lia.
      * by eapply pool_inv_step.
      * exists c'. split; [|done]. by eapply rtc_l.
Qed.

Lemma run_schedule_nsteps sched c c' :
  run_schedule sched c = Some c' → nsteps pool_step (length sched) c c'.
Proof.
  revert c. induction sched as [|i sched IH]; intros c H; simplify_eq/=.
  - apply nsteps_O.
  - destruct (sched_step i c) as [c1|] eqn:Hs; simplify_eq/=.
    eapply nsteps_l; [by exists i|by apply IH].
Qed.

(** X23: concurrent calls to [Add] come to an end.  However the steps of
    any number of calls on connections with distinct descriptors
    interleave, a run has at most five steps for each call, and from every
    state it gets to it can go on until every call has returned or
    panicked: none waits for the lock for ever. *)
Theorem concurrent_Adds_terminate conns faults fds w0 n ts w :
  length faults = length conns →
  Forall2 (λ conn sfd, socketFD conn = Ok sfd) conns fds →
  NoDup fds →
  lock (e w0) = sync.unlocked →
  nsteps pool_step n (zip_with spawn conns faults, w0) (ts, w) →
  (n ≤ 5 * length conns)%nat ∧
  ∃ c', rtc pool_step (ts, w) c' ∧
        Forall (λ t, finished (a_pc t) = true) c'.1.
Proof.
  intros Hlen Hfds Hnd Hlock Hn. split.
  - apply nsteps_work in Hn. pose proof (work_spawn conns faults).
    simpl in Hn. lia.
  - apply (pool_finishes conns fds w0 Hfds Hnd (work ts)); [done|].
    apply (pool_inv_rtc conns fds w0 Hfds Hnd (zip_with spawn conns faults, w0)).
    + by apply pool_inv_init.
    + apply rtc_nsteps. by exists n.
Qed.

Lemma concurrent_Adds_terminate_witness :
  (length interleaved ≤ 5 * length [conn5; conn6; conn7])%nat ∧
  ∃ c', rtc pool_step after_three_adds c' ∧
        Forall (λ t, finished (a_pc t) = true) c'.1.
Proof.
  apply (concurrent_Adds_terminate [conn5; conn6; conn7] [None; None; None]
           [5; 6; 7] world0 (length interleaved)
           after_three_adds.1 after_three_adds.2).
  - reflexivity.
  - repeat constructor.
  - apply (bool_decide_unpack _). vm_compute. exact I.
  - vm_compute. reflexivity.
  - apply run_schedule_nsteps. vm_compute. reflexivity.
Defined.
